(** * runALPAO: the ALPAO deformable-mirror command loop

  A shallow embedding of [runALPAO.c]: the normalisation pipeline
  ([normalize_inputs], [microns_to_fractional_stroke], [bias_inputs],
  [clip_to_limits]), the dispatcher [sendCommand], the two start-up loaders
  ([parse_calibration_file], [get_actuator_mapping]), the shared-memory
  initialisation and the control loop with its SIGINT flag.

  C arrays are lists indexed by [Z]; an access outside the array is the
  outcome [Undefined], and what a fresh block or an unassigned variable
  holds is given by the surroundings of the run.
  [Scalar] (a C [double] in the SDK) is an interface with two instances:
  IEEE binary64 as specified by [SpecFloat], and exact rationals. *)

From Stdlib Require Import ZArith List Bool Lia QArith Qfield.
From Stdlib Require Import Floats.SpecFloat.
Import ListNotations.
Local Open Scope Z_scope.

Set Implicit Arguments.

(** ** Outcomes of C code *)

Inductive outcome (A : Type) : Type :=
| Done (a : A)
| Undefined.
Arguments Undefined {A}.

Definition bind {A B : Type} (m : outcome A) (k : A -> outcome B) : outcome B :=
  match m with
  | Done a => k a
  | Undefined => Undefined
  end.

Notation "x <- m ;; k" := (bind m (fun x => k))
  (at level 61, m at next level, right associativity).
Notation "' p <- m ;; k" := (bind m (fun p => k))
  (at level 61, p pattern, m at next level, right associativity).

(** ** Arrays *)

Fixpoint list_set {A : Type} (l : list A) (n : nat) (v : A) : option (list A) :=
  match l, n with
  | [], _ => None
  | _ :: tl, O => Some (v :: tl)
  | hd :: tl, S k =>
      match list_set tl k v with
      | Some tl' => Some (hd :: tl')
      | None => None
      end
  end.

Definition arr_get {A : Type} (a : list A) (i : Z) : outcome A :=
  if i <? 0 then Undefined
  else match nth_error a (Z.to_nat i) with
       | Some x => Done x
       | None => Undefined
       end.

Definition arr_set {A : Type} (a : list A) (i : Z) (v : A) : outcome (list A) :=
  if i <? 0 then Undefined
  else match list_set a (Z.to_nat i) v with
       | Some a' => Done a'
       | None => Undefined
       end.

(** [for (idx = lo; idx < lo + fuel; idx++) body] over a state [S]. *)
Fixpoint for_loop {S : Type} (fuel : nat) (idx : Z)
         (body : Z -> S -> outcome S) (s : S) : outcome S :=
  match fuel with
  | O => Done s
  | Datatypes.S k =>
      match body idx s with
      | Done s' => for_loop k (idx + 1) body s'
      | Undefined => Undefined
      end
  end.

(** [for (idx = 0; idx < n; idx++) body]. *)
Definition for_upto {S : Type} (n : Z) (body : Z -> S -> outcome S) (s : S)
  : outcome S :=
  for_loop (Z.to_nat n) 0 body s.

(** ** Scalars *)

(** The arithmetic the pipeline uses on [Scalar], and the element type of
    the shared-memory image ([float]) with its conversion to [Scalar]. *)
Class Scalar (T : Type) : Type := {
  sample : Type;
  sample_zero : sample;
  of_sample : sample -> T;
  of_int : Z -> T;
  sadd : T -> T -> T;
  ssub : T -> T -> T;
  smul : T -> T -> T;
  sdiv : T -> T -> T;
  sgt : T -> T -> bool;
  slt : T -> T -> bool;
  to_uint : T -> outcome Z
}.

Module Binary64.

Definition prec : Z := 53.
Definition emax : Z := 1024.

Definition double : Type := spec_float.

(** An [int] is converted exactly: it has at most 32 significant bits. *)
Definition of_int (n : Z) : double := binary_normalize prec emax n 0 false.

(** A binary32 datum widened to binary64: the value is kept and the
    mantissa brought to 53 bits. *)
Definition of_float (x : spec_float) : double :=
  match x with
  | S754_finite s m e => binary_round prec emax s m e
  | _ => x
  end.

Definition gt (x y : double) : bool := SFltb y x.
Definition lt (x y : double) : bool := SFltb x y.

(** Conversion to [unsigned int] truncates toward zero; a value that does
    not fit has no defined result. *)
Definition to_uint (x : double) : outcome Z :=
  match x with
  | S754_zero _ => Done 0
  | S754_finite s m e =>
      let z := if 0 <=? e then Z.shiftl (Zpos m) e else Z.shiftr (Zpos m) (- e) in
      if s then (if z =? 0 then Done 0 else Undefined)
      else if z <? 2 ^ 32 then Done z else Undefined
  | _ => Undefined
  end.

Definition nan : double := S754_nan.
Definition zero : double := S754_zero false.
Definition one : double := S754_finite false 4503599627370496 (-52).
Definition minus_one : double := S754_finite true 4503599627370496 (-52).

Definition is_nan (x : double) : bool :=
  match x with
  | S754_nan => true
  | _ => false
  end.

(** The magnitude of [x] exceeds 1.0. *)
Definition exceeds_one (x : double) : bool := SFltb one (SFabs x).

(** [lo <= x <= hi] as IEEE comparisons. *)
Definition in_range (lo hi x : double) : bool := SFleb lo x && SFleb x hi.

End Binary64.

#[export] Instance double_scalar : Scalar Binary64.double := {
  sample := spec_float;
  sample_zero := S754_zero false;
  of_sample := Binary64.of_float;
  of_int := Binary64.of_int;
  sadd := SFadd Binary64.prec Binary64.emax;
  ssub := SFsub Binary64.prec Binary64.emax;
  smul := SFmul Binary64.prec Binary64.emax;
  sdiv := SFdiv Binary64.prec Binary64.emax;
  sgt := Binary64.gt;
  slt := Binary64.lt;
  to_uint := Binary64.to_uint
}.

Module Exact.

Definition gt (x y : Q) : bool := if Qlt_le_dec y x then true else false.
Definition lt (x y : Q) : bool := if Qlt_le_dec x y then true else false.

Definition to_uint (x : Q) : outcome Z :=
  let z := Z.quot (Qnum x) (Zpos (Qden x)) in
  if (0 <=? z) && (z <? 2 ^ 32) then Done z else Undefined.

End Exact.

Definition exact_scalar : Scalar Q := {|
  sample := Q;
  sample_zero := 0%Q;
  of_sample := fun x => x;
  of_int := inject_Z;
  sadd := Qplus;
  ssub := Qminus;
  smul := Qmult;
  sdiv := Qdiv;
  sgt := Exact.gt;
  slt := Exact.lt;
  to_uint := Exact.to_uint
|}.

(** ** Events *)

(** What the program does to its surroundings, in order.  [T] is [Scalar]
    and [F] the element type of the shared-memory image. *)
Inductive event (T F : Type) : Type :=
| Print_saturated (n : Z)      (* printf("Actuator %d saturated!\n", n) *)
| Fits_report_error            (* fits_report_error(stderr, status) *)
| Asdk_init
| Asdk_get
| Asdk_send (v : list T) (status : Z)
| Asdk_reset
| Asdk_release
| Shm_create (size0 size1 : Z)
| Shm_attach
| Shm_set_write (flag : Z)     (* SMimage[0].md[0].write = flag *)
| Shm_store (i : Z) (v : F)    (* SMimage[0].array.F[i] = v *)
| Shm_incr_cnt0
| Shm_incr_cnt1
| Sem_flush (index : Z)
| Sem_post (index : Z)
| Sem_wait (index : Z)
| Read_stop (value : bool).    (* a read of the volatile flag [stop] *)
Arguments Print_saturated {T F}.
Arguments Fits_report_error {T F}.
Arguments Asdk_init {T F}.
Arguments Asdk_get {T F}.
Arguments Asdk_send {T F}.
Arguments Asdk_reset {T F}.
Arguments Asdk_release {T F}.
Arguments Shm_create {T F}.
Arguments Shm_attach {T F}.
Arguments Shm_set_write {T F}.
Arguments Shm_store {T F}.
Arguments Shm_incr_cnt0 {T F}.
Arguments Shm_incr_cnt1 {T F}.
Arguments Sem_flush {T F}.
Arguments Sem_post {T F}.
Arguments Sem_wait {T F}.
Arguments Read_stop {T F}.

(** ** Machine integers *)

Definition to_uint32 (z : Z) : Z := z mod 2 ^ 32.

Definition to_int32 (z : Z) : Z := (z + 2 ^ 31) mod 2 ^ 32 - 2 ^ 31.

(** ** The normalisation pipeline *)

Section Pipeline.

Context {T : Type} `{Scalar T}.

Definition trace : Type := list (event T sample).

Definition clip_body (idx : Z) (st : list T * trace)
  : outcome (list T * trace) :=
  let '(dminputs, out) := st in
  x <- arr_get dminputs idx ;;
  if sgt x (of_int 1) then
    a <- arr_set dminputs idx (of_int 1) ;;
    Done (a, out ++ [Print_saturated (idx + 1)])
  else if slt x (of_int (-1)) then
    a <- arr_set dminputs idx (of_int (-1)) ;;
    Done (a, out ++ [Print_saturated (idx + 1)])
  else Done (dminputs, out).

Definition clip_to_limits (dminputs : list T) (nbAct : Z)
  : outcome (list T * trace) :=
  for_upto nbAct clip_body (dminputs, []).

Definition microns_to_fractional_stroke (dminputs : list T) (nbAct : Z)
           (max_stroke : T) : outcome (list T) :=
  for_upto nbAct
    (fun idx a => x <- arr_get a idx ;; arr_set a idx (sdiv x max_stroke))
    dminputs.

Definition normalize_inputs (dminputs : list T) (nbAct : Z)
           (volume_factor : T) : outcome (list T) :=
  for_upto nbAct
    (fun idx a => x <- arr_get a idx ;; arr_set a idx (smul x volume_factor))
    dminputs.

Definition bias_inputs (dminputs : list T) (nbAct : Z) : outcome (list T) :=
  mean <- for_upto nbAct
            (fun idx mean => x <- arr_get dminputs idx ;; Done (sadd mean x))
            (of_int 0) ;;
  let mean := sdiv mean (of_int nbAct) in
  for_upto nbAct
    (fun idx a => x <- arr_get a idx ;; arr_set a idx (ssub x mean))
    dminputs.

(** [sendCommand]: [image] is [SMimage[0].array.F] and [send_status] the
    status [asdkSend] answers with. *)
Definition sendCommand (send_status : Z) (image : list sample) (nbAct : Z)
           (nobias nonorm fractional : Z) (max_stroke volume_factor : T)
           (actuator_mapping : list Z)
  : outcome (Z * trace) :=
  let dminputs := repeat (of_int 0) (Z.to_nat nbAct) in
  dminputs <- for_upto nbAct
                (fun idx a =>
                   m <- arr_get actuator_mapping idx ;;
                   f <- arr_get image m ;;
                   arr_set a idx (of_sample f))
                dminputs ;;
  dminputs <- (if negb (nonorm =? 1)
               then normalize_inputs dminputs nbAct volume_factor
               else Done dminputs) ;;
  dminputs <- (if negb (fractional =? 1)
               then microns_to_fractional_stroke dminputs nbAct max_stroke
               else Done dminputs) ;;
  dminputs <- (if negb (nobias =? 1)
               then bias_inputs dminputs nbAct
               else Done dminputs) ;;
  ' (dminputs, out) <- clip_to_limits dminputs nbAct ;;
  let ret := send_status in
  Done (ret, out ++ [Asdk_send dminputs ret]).

End Pipeline.

(** ** The start-up loaders *)

(** A FITS image as [get_actuator_mapping] sees it: whether the HDU is an
    image, NAXIS, the first two axis lengths, and the pixels in file order
    (first axis fastest). *)
Record fits_image : Type := {
  hdu_is_image : bool;
  naxis : Z;
  naxes0 : Z;
  naxes1 : Z;
  pixels : list Z
}.

(** What a pointer variable holds: [Wild] is a value that no allocation
    returned, as an uninitialised automatic variable may hold. *)
Inductive pointer : Type :=
| Null
| Block
| Wild.

Definition free (p : pointer) : outcome unit :=
  match p with
  | Wild => Undefined
  | _ => Done tt
  end.

(** [fits_read_pix(fptr, TINT, fpixel, nelem, 0, pix, 0, &status)] with
    [fpixel = {1, row}]: the [nelem] pixels from the start of row [row], or
    [None] when they are not all in the file (a non-zero status). *)
Definition fits_read_pix (img : fits_image) (row nelem : Z) : option (list Z) :=
  let first := (row - 1) * naxes0 img in
  if (0 <=? first) && (0 <=? nelem)
     && (first + nelem <=? Z.of_nat (List.length (pixels img)))
  then Some (firstn (Z.to_nat nelem) (skipn (Z.to_nat first) (pixels img)))
  else None.

Section Loaders.

Context {T : Type} `{Scalar T}.

(** A line of the calibration file, by what [strtod] makes of it. *)
Inductive cal_line : Type :=
| Numeric (v : T)
| Not_numeric.

Definition strtod (line : cal_line) : T :=
  match line with
  | Numeric v => v
  | Not_numeric => of_int 0
  end.

(** [while ((read = getline(...)) != -1) { calibvals[idx] = strtod(line, NULL); idx++; }] *)
Fixpoint read_calibvals (lines : list cal_line) (idx : Z) (calibvals : list T)
  : outcome (list T) :=
  match lines with
  | [] => Done calibvals
  | line :: rest =>
      calibvals <- arr_set calibvals idx (strtod line) ;;
      read_calibvals rest (idx + 1) calibvals
  end.

(** [parse_calibration_file]: [root_set] tells whether [getenv] finds
    [alpao_calib], [file] is what [fopen] finds at the path built from it
    ([None] when it cannot be opened), and [heap] is what the block that
    [malloc] returns for [calibvals] happens to hold.  The result is the
    returned status with [max_stroke] and [volume_factor] when they are
    assigned. *)
Definition parse_calibration_file (root_set : bool)
           (file : option (list cal_line)) (heap : T * T)
  : outcome (Z * option (T * T)) :=
  if negb root_set then Undefined       (* strcpy(calibpath, NULL) *)
  else
    match file with
    | None => Done (-1, None)
    | Some lines =>
        let calibvals := [fst heap; snd heap] in
        calibvals <- read_calibvals lines 0 calibvals ;;
        max_stroke <- arr_get calibvals 0 ;;
        volume_factor <- arr_get calibvals 1 ;;
        Done (0, Some (max_stroke, volume_factor))
    end.

(** The body of [for (ii = 0; ii < naxes[0]; ii++)] for the row [row]. *)
Definition mapping_body (pix : list Z) (row width : Z) (ii : Z)
           (st : list Z * Z) : outcome (list Z * Z) :=
  let '(actuator_mapping, ij) := st in
  p <- arr_get pix ii ;;
  if p >? 0 then
    a <- arr_set actuator_mapping ij (to_int32 ((row - 1) * width + ii)) ;;
    Done (a, ij + 1)
  else Done (actuator_mapping, ij).

(** [for (fpixel[1] = naxes[1]; fpixel[1] >= 1; fpixel[1]--)], leaving at the
    first row that cannot be read; the boolean is [status != 0]. *)
Fixpoint mapping_rows (img : fits_image) (fuel : nat) (row : Z)
         (st : list Z * Z) : outcome (list Z * Z * bool) :=
  match fuel with
  | O => Done (st, false)
  | S k =>
      match fits_read_pix img row (naxes0 img) with
      | None => Done (st, true)
      | Some pix =>
          st <- for_upto (naxes0 img) (mapping_body pix row (naxes0 img)) st ;;
          mapping_rows img k (row - 1) st
      end
  end.

(** [get_actuator_mapping]: [file] is what [fits_open_image] finds ([None]
    when it fails), [pix0] what the variable [pix] holds before any
    assignment, and [actuator_mapping] the caller's buffer.  [malloc] is
    taken to succeed. *)
Definition get_actuator_mapping (file : option fits_image) (pix0 : pointer)
           (nbAct : Z) (actuator_mapping : list Z)
  : outcome (Z * list Z * trace) :=
  match file with
  | Some img =>
      if negb (hdu_is_image img) then Done (1, actuator_mapping, [])
      else if negb (naxis img =? 2) then Done (1, actuator_mapping, [])
      else
        let pix := Block in
        ' (st, status) <- mapping_rows img (Z.to_nat (naxes1 img)) (naxes1 img)
                            (actuator_mapping, 0) ;;
        let out := if status : bool then [Fits_report_error] else [] in
        _ <- free pix ;;
        Done (0, fst st, out)
  | None =>
      let out := [Fits_report_error] in
      _ <- free pix0 ;;
      Done (0, actuator_mapping, out)
  end.

(** ** The shared-memory image *)

Definition initializeSharedMemory (ax1 ax2 : Z) : outcome trace :=
  let imsize0 := to_uint32 ax1 in
  let imsize1 := to_uint32 ax2 in
  let out := [Shm_create imsize0 imsize1; Sem_flush (-1); Shm_set_write 1] in
  out <- for_upto (11 * 11)
           (fun i out => Done (out ++ [Shm_store i sample_zero])) out ;;
  Done (out ++ [Sem_post (-1); Shm_set_write 0; Shm_incr_cnt0; Shm_incr_cnt1]).

(** [SMimage[0].array.F[i] = 0.] for [count] indices from [from] on. *)
Definition zero_stores (from count : nat) : trace :=
  map (fun i => Shm_store (Z.of_nat i) sample_zero) (seq from count).

(** The image behind the events: its metadata and its array. *)
Record image : Type := {
  md_size0 : Z;
  md_size1 : Z;
  md_write : Z;
  md_cnt0 : Z;
  md_cnt1 : Z;
  array_F : list sample
}.

Definition with_array (img : image) (a : list sample) : image :=
  {| md_size0 := md_size0 img; md_size1 := md_size1 img;
     md_write := md_write img; md_cnt0 := md_cnt0 img; md_cnt1 := md_cnt1 img;
     array_F := a |}.

(** The effect of one event on the image; [fresh] gives the contents of a
    newly created array.  Events that are not about the image's memory leave
    it alone. *)
Definition shm_effect (fresh : Z -> sample) (img : image) (e : event T sample)
  : outcome image :=
  match e with
  | Shm_create size0 size1 =>
      Done {| md_size0 := size0; md_size1 := size1; md_write := 0;
              md_cnt0 := 0; md_cnt1 := 0;
              array_F := map (fun i => fresh (Z.of_nat i))
                             (seq 0 (Z.to_nat (size0 * size1))) |}
  | Shm_set_write flag =>
      Done {| md_size0 := md_size0 img; md_size1 := md_size1 img;
              md_write := flag; md_cnt0 := md_cnt0 img; md_cnt1 := md_cnt1 img;
              array_F := array_F img |}
  | Shm_store i v =>
      a <- arr_set (array_F img) i v ;;
      Done (with_array img a)
  | Shm_incr_cnt0 =>
      Done {| md_size0 := md_size0 img; md_size1 := md_size1 img;
              md_write := md_write img; md_cnt0 := md_cnt0 img + 1;
              md_cnt1 := md_cnt1 img; array_F := array_F img |}
  | Shm_incr_cnt1 =>
      Done {| md_size0 := md_size0 img; md_size1 := md_size1 img;
              md_write := md_write img; md_cnt0 := md_cnt0 img;
              md_cnt1 := md_cnt1 img + 1; array_F := array_F img |}
  | _ => Done img
  end.

Fixpoint shm_run (fresh : Z -> sample) (img : image) (tr : trace)
  : outcome image :=
  match tr with
  | [] => Done img
  | e :: rest => img <- shm_effect fresh img e ;; shm_run fresh img rest
  end.

End Loaders.

(** ** The control loop *)

(** How a run of [controlLoop] ends within the scripted environment:
    it returns, or it is left suspended in [ImageStreamIO_semwait]. *)
Inductive termination : Type :=
| Returned (ret : Z)
| Blocked.

Section ControlLoop.

Context {T : Type} `{Scalar T}.

(** One return of [ImageStreamIO_semwait] inside the loop, with what the
    surroundings do around it: whether SIGINT was handled before the loop
    test that precedes the wait, whether it was handled between that test
    and the test that follows the wait, what the image holds at the wake,
    and the status [asdkSend] answers with. *)
Record wake : Type := {
  sigint_before_test : bool;
  sigint_in_wait : bool;
  wake_image : list sample;
  wake_send : Z
}.

(** What the DM and the channel answer during start-up. *)
Record startup : Type := {
  root_set : bool;
  calib_file : option (list (@cal_line T));
  calib_heap : T * T;
  dm_found : bool;                (* asdkInit returns a handle *)
  get_status : Z;                 (* asdkGet: status and value *)
  get_value : T;
  map_file : option fits_image;
  map_pix0 : pointer;
  map_heap : Z -> Z;              (* the fresh block for actuator_mapping *)
  attached_naxis : Z;             (* SMimage[0].md[0] after attaching *)
  attached_size0 : Z;
  attached_size1 : Z;
  first_image : list sample;
  first_send : Z;
  release_status : Z              (* asdkRelease *)
}.

Definition shutdown (release : Z) : termination * trace :=
  (Returned release, [Asdk_reset; Asdk_release]).

(** [while (!stop) { semwait; if (!stop) { ret = sendCommand(...); if (ret == -1) return -1; } }]
    followed by the reset and release.  [stop] is the flag as the handler
    left it. *)
Fixpoint control_cycles (nbAct nobias nonorm fractional : Z)
         (max_stroke volume_factor : T) (actuator_mapping : list Z)
         (release : Z) (stop : bool) (script : list wake)
  : outcome (termination * trace) :=
  match script with
  | [] =>
      if stop then
        Done (fst (shutdown release), Read_stop true :: snd (shutdown release))
      else Done (Blocked, [Read_stop false; Sem_wait 0])
  | w :: rest =>
      let stop := stop || sigint_before_test w in
      if stop then
        Done (fst (shutdown release), Read_stop true :: snd (shutdown release))
      else
        let stop := sigint_in_wait w in
        if stop then
          ' (t, tr) <- control_cycles nbAct nobias nonorm fractional max_stroke
                         volume_factor actuator_mapping release stop rest ;;
          Done (t, [Read_stop false; Sem_wait 0; Read_stop true] ++ tr)
        else
          ' (ret, out) <- sendCommand (wake_send w) (wake_image w) nbAct nobias
                            nonorm fractional max_stroke volume_factor
                            actuator_mapping ;;
          if ret =? -1 then
            Done (Returned (-1),
                  [Read_stop false; Sem_wait 0; Read_stop false] ++ out)
          else
            ' (t, tr) <- control_cycles nbAct nobias nonorm fractional
                           max_stroke volume_factor actuator_mapping release
                           stop rest ;;
            Done (t, [Read_stop false; Sem_wait 0; Read_stop false] ++ out ++ tr)
  end.

Definition shm_dim : Z := 11.

Definition controlLoop (env : startup) (nobias nonorm fractional : Z)
           (script : list wake) : outcome (termination * trace) :=
  ' (ret, calib) <- parse_calibration_file (root_set env) (calib_file env)
                      (calib_heap env) ;;
  if ret =? -1 then Done (Returned (-1), [])
  else
    match calib with
    | None => Undefined
    | Some (max_stroke, volume_factor) =>
        if negb (dm_found env) then Done (Returned (-1), [Asdk_init])
        else if get_status env =? -1 then
          Done (Returned (-1), [Asdk_init; Asdk_get])
        else
          nbAct <- to_uint (get_value env) ;;
          let actuator_mapping :=
            map (fun i => map_heap env (Z.of_nat i)) (seq 0 (Z.to_nat nbAct)) in
          ' (_, actuator_mapping, out_map) <-
              get_actuator_mapping (map_file env) (map_pix0 env)
                (to_int32 nbAct) actuator_mapping ;;
          out_shm <- initializeSharedMemory shm_dim shm_dim ;;
          let out := [Asdk_init; Asdk_get] ++ out_map ++ out_shm ++ [Shm_attach] in
          if negb (attached_naxis env =? 2) then Done (Returned (-1), out)
          else if negb (attached_size0 env =? shm_dim) then
            Done (Returned (-1), out)
          else if negb (attached_size1 env =? shm_dim) then
            Done (Returned (-1), out)
          else
            ' (ret, out_send) <- sendCommand (first_send env) (first_image env)
                                   (to_int32 nbAct) nobias nonorm fractional
                                   max_stroke volume_factor actuator_mapping ;;
            let out := out ++ [Sem_wait 0] ++ out_send in
            if ret =? -1 then Done (Returned (-1), out)
            else
              ' (t, tr) <- control_cycles (to_int32 nbAct) nobias nonorm
                             fractional max_stroke volume_factor
                             actuator_mapping (release_status env) false
                             script ;;
              Done (t, out ++ tr)
    end.

End ControlLoop.

(** ** Reading a trace *)

Section Traces.

Context {T F : Type}.

Definition is_failed_send (e : event T F) : bool :=
  match e with
  | Asdk_send _ status => status =? -1
  | _ => false
  end.

Definition is_stop_seen (e : event T F) : bool :=
  match e with
  | Read_stop true => true
  | _ => false
  end.

(** Nothing follows a send that failed. *)
Fixpoint failed_send_ends (tr : list (event T F)) : bool :=
  match tr with
  | [] => true
  | e :: rest =>
      if is_failed_send e
      then match rest with
           | [] => true
           | _ => false
           end
      else failed_send_ends rest
  end.

(** What may follow a read of [stop] that found it set: at most one more
    such read, then the reset and the release. *)
Definition shutdown_tail (tr : list (event T F)) : bool :=
  match tr with
  | [Asdk_reset; Asdk_release] => true
  | [Read_stop true; Asdk_reset; Asdk_release] => true
  | _ => false
  end.

(** The first read that finds [stop] set is followed by a shutdown tail,
    and there is no reset or release before it. *)
Fixpoint stop_ends (tr : list (event T F)) : bool :=
  match tr with
  | [] => true
  | Read_stop true :: rest => shutdown_tail rest
  | Asdk_reset :: _ => false
  | Asdk_release :: _ => false
  | _ :: rest => stop_ends rest
  end.

(** Events of start-up and of the pipeline: no send, no read of a set
    [stop], no reset, no release. *)
Definition is_plain (e : event T F) : bool :=
  match e with
  | Asdk_send _ _ => false
  | Read_stop true => false
  | Asdk_reset => false
  | Asdk_release => false
  | _ => true
  end.

(** A run that ends as the loop is written to end: nothing after a failed
    send, which makes the run return -1; and after [stop] is seen set only
    the shutdown, which makes it return what [asdkRelease] answered. *)
Definition ends_well (release : Z) (t : termination) (tr : list (event T F))
  : Prop :=
  failed_send_ends tr = true
  /\ stop_ends tr = true
  /\ (existsb is_failed_send tr = true -> t = Returned (-1))
  /\ (existsb is_stop_seen tr = true -> t = Returned release).

End Traces.

(** ** The actuator mapping as the specification words it *)

(** The cells of row [row] (0-based) from left to right: the flattened
    index [row * width + column] of every strictly positive one. *)
Definition scan_row (pixels : list Z) (width row : Z) : list Z :=
  flat_map
    (fun column =>
       let index := row * width + Z.of_nat column in
       if nth (Z.to_nat index) pixels 0 >? 0 then [index] else [])
    (seq 0 (Z.to_nat width)).

(** Rows from the last to the first. *)
Definition scan_rows (pixels : list Z) (width : Z) (rows : nat) : list Z :=
  flat_map (fun row => scan_row pixels width (Z.of_nat row))
           (rev (seq 0 rows)).

Definition scan_grid (pixels : list Z) (width height : Z) : list Z :=
  scan_rows pixels width (Z.to_nat height).

(** The indices one pass over the row buffer [pix] stores, for the columns
    [from .. from + count - 1]; [base] is the flattened index of column 0. *)
Definition emit_row (base : Z) (pix : list Z) (from count : nat) : list Z :=
  flat_map
    (fun column =>
       if nth column pix 0 >? 0 then [base + Z.of_nat column] else [])
    (seq from count).

Definition count_positive (pixels : list Z) : nat :=
  List.length (filter (fun p => p >? 0) pixels).

(** ** The pipeline as the specification words it *)

Section PipelineSpec.

Context {T : Type} `{Scalar T}.

(** The values [sendCommand] pulls out of the image: [input[i] =
    frame[mapping[i]]] for the first [nbAct] entries of the mapping. *)
Definition mapped_input (image : list sample) (nbAct : Z) (mapping : list Z)
  : list T :=
  map (fun m => of_sample (nth (Z.to_nat m) image sample_zero))
      (firstn (Z.to_nat nbAct) mapping).

(** Stage 1: multiply every value by [volume_factor]. *)
Definition volume_stage (volume_factor : T) (v : list T) : list T :=
  map (fun x => smul x volume_factor) v.

(** Stage 2: divide every value by [max_stroke]. *)
Definition unit_stage (max_stroke : T) (v : list T) : list T :=
  map (fun x => sdiv x max_stroke) v.

(** The arithmetic mean, summed from the first element on. *)
Definition mean_of (v : list T) : T :=
  sdiv (fold_left sadd v (of_int 0)) (of_int (Z.of_nat (length v))).

(** Stage 3: subtract the mean from every value. *)
Definition bias_stage (v : list T) : list T :=
  map (fun x => ssub x (mean_of v)) v.

(** Stage 4: a value above 1 becomes 1, a value below -1 becomes -1. *)
Definition clamp (x : T) : T :=
  if sgt x (of_int 1) then of_int 1
  else if slt x (of_int (-1)) then of_int (-1)
  else x.

Definition saturated (x : T) : bool :=
  sgt x (of_int 1) || slt x (of_int (-1)).

Definition clip_stage (v : list T) : list T := map clamp v.

(** The warnings of stage 4: one per saturated value, numbered from
    [first] on. *)
Fixpoint warnings_from (first : Z) (v : list T) : trace :=
  match v with
  | [] => []
  | x :: tl =>
      (if saturated x then [Print_saturated first] else [])
        ++ warnings_from (first + 1) tl
  end.

(** How many warnings in [out] name actuator number [k]. *)
Definition warnings_for (k : Z) (out : trace) : nat :=
  List.length
    (filter (fun e => match e with
                      | Print_saturated n => n =? k
                      | _ => false
                      end) out).

Definition optional (enabled : bool) (stage : list T -> list T) (v : list T)
  : list T :=
  if enabled then stage v else v.

Definition unclipped (normalize fractional bias : bool)
           (max_stroke volume_factor : T) (input : list T) : list T :=
  optional bias bias_stage
    (optional (negb fractional) (unit_stage max_stroke)
       (optional normalize (volume_stage volume_factor) input)).

Definition pipeline (normalize fractional bias : bool)
           (max_stroke volume_factor : T) (input : list T) : list T :=
  clip_stage (unclipped normalize fractional bias max_stroke volume_factor input).

End PipelineSpec.

(** ** A small installation *)

(** A mirror with two actuators on the 11 x 11 grid, mapped to the cells 60
    and 61, with binary64 scalars. *)
Module Example.

Definition mask : fits_image := {|
  hdu_is_image := true;
  naxis := 2;
  naxes0 := 11;
  naxes1 := 11;
  pixels := repeat 0 60 ++ [1; 1] ++ repeat 0 59
|}.

Definition startup_with (calibration : list (@cal_line Binary64.double))
           (map : option fits_image) (first_status : Z)
  : @startup Binary64.double double_scalar := {|
  root_set := true;
  calib_file := Some calibration;
  calib_heap := (Binary64.of_int 7, Binary64.of_int 7);
  dm_found := true;
  get_status := 0;
  get_value := Binary64.of_int 2;
  map_file := map;
  map_pix0 := Null;
  map_heap := fun _ => 0;
  attached_naxis := 2;
  attached_size0 := 11;
  attached_size1 := 11;
  first_image := repeat Binary64.zero 121;
  first_send := first_status;
  release_status := 0
|}.

Definition calibration : list (@cal_line Binary64.double) :=
  [Numeric (Binary64.of_int 3); Numeric (Binary64.of_int 1)].

Definition env : @startup Binary64.double double_scalar :=
  startup_with calibration (Some mask) 0.

(** A frame that asks 6 of actuator 0 and -1 of actuator 1. *)
Definition frame : list spec_float :=
  repeat Binary64.zero 60
    ++ [Binary64.of_int 6; Binary64.of_int (-1)]
    ++ repeat Binary64.zero 59.

Definition wake_with (before during : bool) (status : Z)
  : @wake Binary64.double double_scalar := {|
  sigint_before_test := before;
  sigint_in_wait := during;
  wake_image := frame;
  wake_send := status
|}.

(** The events of a run, and those before its last [n]. *)
Definition events_of (run : outcome (termination * @trace Binary64.double _))
  : @trace Binary64.double _ :=
  match run with
  | Done (_, tr) => tr
  | Undefined => []
  end.

Definition all_but_last (n : nat) (tr : @trace Binary64.double double_scalar)
  : @trace Binary64.double double_scalar :=
  firstn (List.length tr - n) tr.

(** One dispatch, then SIGINT while the loop waits. *)
Definition interrupted : list (@wake Binary64.double double_scalar) :=
  [wake_with false false 0; wake_with false true 0; wake_with false false 0].

(** One dispatch, then a dispatch that the device refuses. *)
Definition refused : list (@wake Binary64.double double_scalar) :=
  [wake_with false false 0; wake_with false false (-1); wake_with false false 0].

End Example.

(** ** The signal handler and the command line *)



Section CommandLine.

(** [Str] stands for [const char *] values other than NULL. *)
Variable Str : Type.

(** [struct arguments]. *)
Record arguments : Type := {
  args : list (option Str);
  arg_nobias : Z;
  arg_nonorm : Z;
  arg_fractional : Z
}.

(** What one call of [parse_opt] ends in: it returns, or [argp_usage]
    prints the usage and ends the process (the parser is run without
    ARGP_NO_EXIT). *)
Inductive parsed : Type :=
| Returns (ret : Z) (a : arguments)
| Usage_exit.

(** The keys and the error code that <argp.h> declares. *)
Variables ARGP_KEY_ARG ARGP_KEY_END ARGP_ERR_UNKNOWN : Z.

Definition key_b : Z := 98.
Definition key_n : Z := 110.
Definition key_f : Z := 102.

(** The case [ARGP_KEY_ARG], which the case ['f'] runs into. *)
Definition parse_positional (arg : option Str) (arg_num : Z) (a : arguments)
  : outcome parsed :=
  if arg_num >=? 2 then Done Usage_exit
  else
    slots <- arr_set (args a) arg_num arg ;;
    Done (Returns 0 {| args := slots; arg_nobias := arg_nobias a;
                       arg_nonorm := arg_nonorm a;
                       arg_fractional := arg_fractional a |}).

(** [parse_opt]: [arg_num] is [state->arg_num] and [a] the structure
    [state->input] points to. *)
Definition parse_opt (key : Z) (arg : option Str) (arg_num : Z) (a : arguments)
  : outcome parsed :=
  if key =? key_b then
    Done (Returns 0 {| args := args a; arg_nobias := 1;
                       arg_nonorm := arg_nonorm a;
                       arg_fractional := arg_fractional a |})
  else if key =? key_n then
    Done (Returns 0 {| args := args a; arg_nobias := arg_nobias a;
                       arg_nonorm := 1;
                       arg_fractional := arg_fractional a |})
  else if key =? key_f then
    parse_positional arg arg_num
      {| args := args a; arg_nobias := arg_nobias a;
         arg_nonorm := arg_nonorm a; arg_fractional := 1 |}
  else if key =? ARGP_KEY_ARG then parse_positional arg arg_num a
  else if key =? ARGP_KEY_END then
    if arg_num <? 2 then Done Usage_exit else Done (Returns 0 a)
  else Done (Returns ARGP_ERR_UNKNOWN a).

End CommandLine.

(** ** Counting *)

Definition is_dispatch {T F : Type} (e : event T F) : bool :=
  match e with
  | Asdk_send _ _ => true
  | _ => false
  end.

Definition dispatches {T F : Type} (tr : list (event T F)) : nat :=
  List.length (filter is_dispatch tr).

(** What it means for a stage to respect the count it is given: with a
    count within the array it returns an array of the same length whose
    elements from the count on are those it was given; with a count of 0 or
    less it returns the array as it is; with a count beyond the array it
    runs past the end. *)
Definition respects_count {T : Type} (stage : list T -> Z -> outcome (list T))
  : Prop :=
  forall (v : list T) (n : Z),
    (n <= Z.of_nat (List.length v) ->
     exists v', stage v n = Done v'
                /\ List.length v' = List.length v
                /\ skipn (Z.to_nat n) v' = skipn (Z.to_nat n) v)
    /\ (n <= 0 -> stage v n = Done v)
    /\ (Z.of_nat (List.length v) < n -> stage v n = Undefined).

(** [m] indexes the image. *)
Definition in_image {F : Type} (image : list F) (m : Z) : Prop :=
  0 <= m < Z.of_nat (List.length image).

(** What [sendCommand] computes before it clips. *)
Definition staged_input {T : Type} `{Scalar T} (image : list sample)
           (nbAct : Z) (nobias nonorm fractional : Z)
           (max_stroke volume_factor : T) (mapping : list Z) : list T :=
  unclipped (negb (nonorm =? 1)) (fractional =? 1) (negb (nobias =? 1))
    max_stroke volume_factor (mapped_input image nbAct mapping).

(** Every start-up check of [controlLoop] went through. *)
Definition startup_passed {T : Type} `{Scalar T} (env : startup) : Prop :=
  root_set env = true
  /\ calib_file env <> None
  /\ dm_found env = true
  /\ get_status env <> -1
  /\ attached_naxis env = 2
  /\ attached_size0 env = 11
  /\ attached_size1 env = 11.

(** A wake during which no SIGINT is handled and the send succeeds. *)
Definition quiet_wake {T : Type} `{Scalar T} (w : wake) : Prop :=
  sigint_before_test w = false
  /\ sigint_in_wait w = false
  /\ wake_send w <> -1.





(** * Properties *)

Unset Implicit Arguments.

(** ** Arrays and loops *)

Lemma bind_done {A B : Type} (m : outcome A) (k : A -> outcome B) (b : B) :
  bind m k = Done b -> exists a, m = Done a /\ k a = Done b.
Proof.
  destruct m as [a|]; simpl; intros E; [exists a; auto | discriminate].
Qed.

Lemma list_set_middle {A : Type} (pre post : list A) (x v : A) :
  list_set (pre ++ x :: post) (List.length pre) v = Some (pre ++ v :: post).
Proof.
  induction pre as [|p pre IH]; simpl; [reflexivity|].
  now rewrite IH.
Qed.

Lemma list_set_beyond {A : Type} (l : list A) (n : nat) (v : A) :
  (List.length l <= n)%nat -> list_set l n v = None.
Proof.
  revert n; induction l as [|h l IH]; intros n Hn; simpl in *; [reflexivity|].
  destruct n as [|n]; [lia|].
  rewrite IH by lia; reflexivity.
Qed.

Lemma arr_get_middle {A : Type} (pre post : list A) (x : A) :
  arr_get (pre ++ x :: post) (Z.of_nat (List.length pre)) = Done x.
Proof.
  unfold arr_get.
  destruct (Z.ltb_spec (Z.of_nat (List.length pre)) 0) as [Hneg|_]; [lia|].
  rewrite Nat2Z.id, nth_error_app2 by lia.
  now rewrite Nat.sub_diag.
Qed.

Lemma arr_set_middle {A : Type} (pre post : list A) (x v : A) :
  arr_set (pre ++ x :: post) (Z.of_nat (List.length pre)) v
  = Done (pre ++ v :: post).
Proof.
  unfold arr_set.
  destruct (Z.ltb_spec (Z.of_nat (List.length pre)) 0) as [Hneg|_]; [lia|].
  now rewrite Nat2Z.id, list_set_middle.
Qed.

Lemma arr_get_beyond {A : Type} (a : list A) :
  arr_get a (Z.of_nat (List.length a)) = Undefined.
Proof.
  unfold arr_get.
  destruct (Z.ltb_spec (Z.of_nat (List.length a)) 0) as [Hneg|_]; [reflexivity|].
  rewrite Nat2Z.id.
  destruct (nth_error a (List.length a)) eqn:E; [|reflexivity].
  assert (nth_error a (List.length a) <> None) as Hs by congruence.
  apply nth_error_Some in Hs; lia.
Qed.

Lemma arr_get_nth {A : Type} (a : list A) (i : Z) (d : A) :
  0 <= i < Z.of_nat (List.length a) ->
  arr_get a i = Done (nth (Z.to_nat i) a d).
Proof.
  intros Hi; unfold arr_get.
  destruct (Z.ltb_spec i 0) as [Hneg|_]; [lia|].
  rewrite (nth_error_nth' a d) by lia; reflexivity.
Qed.

Lemma for_loop_app {S : Type} (body : Z -> S -> outcome S) (n m : nat) :
  forall (i : Z) (s : S),
    for_loop (n + m) i body s
    = (s' <- for_loop n i body s ;; for_loop m (i + Z.of_nat n) body s').
Proof.
  induction n as [|n IH]; intros i s.
  - simpl; now rewrite Z.add_0_r.
  - cbn [Nat.add for_loop].
    destruct (body i s) as [s1|]; [|reflexivity].
    rewrite IH; f_equal.
    replace (i + 1 + Z.of_nat n) with (i + Z.of_nat (Datatypes.S n)) by lia.
    reflexivity.
Qed.

(** A loop that rewrites each element of a segment by [f]. *)
Lemma for_loop_map {A : Type} (f : A -> A) (mid : list A) :
  forall (pre post : list A),
    for_loop (List.length mid) (Z.of_nat (List.length pre))
      (fun idx a => x <- arr_get a idx ;; arr_set a idx (f x))
      (pre ++ mid ++ post)
    = Done (pre ++ map f mid ++ post).
Proof.
  induction mid as [|x mid IH]; intros pre post; [reflexivity|].
  cbn [List.length for_loop app map].
  rewrite arr_get_middle; cbn [bind]; rewrite arr_set_middle.
  replace (Z.of_nat (List.length pre) + 1)
    with (Z.of_nat (List.length (pre ++ [f x])))
    by (rewrite length_app; simpl; lia).
  change (pre ++ f x :: mid ++ post) with (pre ++ [f x] ++ mid ++ post).
  rewrite app_assoc, IH, <- app_assoc; reflexivity.
Qed.

(** A loop that folds the elements of a segment into an accumulator. *)
Lemma for_loop_fold {A B : Type} (g : B -> A -> B) (mid : list A) :
  forall (pre post : list A) (acc : B),
    for_loop (List.length mid) (Z.of_nat (List.length pre))
      (fun idx acc => x <- arr_get (pre ++ mid ++ post) idx ;; Done (g acc x))
      acc
    = Done (fold_left g mid acc).
Proof.
  induction mid as [|x mid IH]; intros pre post acc; [reflexivity|].
  cbn [List.length for_loop app fold_left].
  rewrite arr_get_middle; cbn [bind].
  replace (Z.of_nat (List.length pre) + 1)
    with (Z.of_nat (List.length (pre ++ [x])))
    by (rewrite length_app; simpl; lia).
  change (pre ++ x :: mid ++ post) with (pre ++ [x] ++ mid ++ post).
  rewrite app_assoc, IH; reflexivity.
Qed.

Lemma for_upto_map {A : Type} (f : A -> A) (v : list A) (n : Z) :
  n <= Z.of_nat (List.length v) ->
  for_upto n (fun idx a => x <- arr_get a idx ;; arr_set a idx (f x)) v
  = Done (map f (firstn (Z.to_nat n) v) ++ skipn (Z.to_nat n) v).
Proof.
  intros Hn; unfold for_upto.
  pose proof (for_loop_map f (firstn (Z.to_nat n) v) [] (skipn (Z.to_nat n) v))
    as E.
  cbn [app List.length Z.of_nat] in E.
  rewrite firstn_skipn, firstn_length_le in E by lia.
  exact E.
Qed.

Lemma for_upto_fold {A B : Type} (g : B -> A -> B) (v : list A) (n : Z) (acc : B) :
  n <= Z.of_nat (List.length v) ->
  for_upto n (fun idx acc => x <- arr_get v idx ;; Done (g acc x)) acc
  = Done (fold_left g (firstn (Z.to_nat n) v) acc).
Proof.
  intros Hn; unfold for_upto.
  pose proof (for_loop_fold g (firstn (Z.to_nat n) v) [] (skipn (Z.to_nat n) v)
                acc) as E.
  cbn [app List.length Z.of_nat] in E.
  rewrite firstn_skipn, firstn_length_le in E by lia.
  exact E.
Qed.

(** ** The stages, loop by loop *)

Section PipelineFacts.

Context {T : Type} `{Scalar T}.

Lemma normalize_inputs_spec (v : list T) (n : Z) (volume_factor : T) :
  n <= Z.of_nat (List.length v) ->
  normalize_inputs v n volume_factor
  = Done (volume_stage volume_factor (firstn (Z.to_nat n) v)
            ++ skipn (Z.to_nat n) v).
Proof.
  intros Hn; unfold normalize_inputs, volume_stage.
  now apply for_upto_map.
Qed.

Lemma microns_to_fractional_stroke_spec (v : list T) (n : Z) (max_stroke : T) :
  n <= Z.of_nat (List.length v) ->
  microns_to_fractional_stroke v n max_stroke
  = Done (unit_stage max_stroke (firstn (Z.to_nat n) v)
            ++ skipn (Z.to_nat n) v).
Proof.
  intros Hn; unfold microns_to_fractional_stroke, unit_stage.
  now apply for_upto_map.
Qed.

Lemma bias_inputs_spec (v : list T) (n : Z) :
  n <= Z.of_nat (List.length v) ->
  bias_inputs v n
  = Done (bias_stage (firstn (Z.to_nat n) v) ++ skipn (Z.to_nat n) v).
Proof.
  intros Hn; unfold bias_inputs.
  rewrite for_upto_fold by exact Hn; cbn [bind].
  rewrite for_upto_map by exact Hn.
  unfold bias_stage, mean_of.
  destruct (Z.le_gt_cases 0 n) as [Hpos|Hneg].
  - rewrite firstn_length_le, Z2Nat.id by lia; reflexivity.
  - replace (Z.to_nat n) with 0%nat by lia; reflexivity.
Qed.

Lemma clip_body_middle (pre post : list T) (x : T) (out : trace) :
  clip_body (Z.of_nat (List.length pre)) (pre ++ x :: post, out)
  = Done (pre ++ clamp x :: post,
          out ++ warnings_from (Z.of_nat (List.length pre) + 1) [x]).
Proof.
  unfold clip_body, clamp; cbn [warnings_from]; unfold saturated.
  rewrite arr_get_middle; cbn [bind].
  destruct (sgt x (of_int 1)).
  - rewrite arr_set_middle; reflexivity.
  - destruct (slt x (of_int (-1))).
    + rewrite arr_set_middle; reflexivity.
    + cbn [orb app]; now rewrite app_nil_r.
Qed.

Lemma clip_loop (mid : list T) :
  forall (pre post : list T) (out : trace),
    for_loop (List.length mid) (Z.of_nat (List.length pre)) clip_body
      (pre ++ mid ++ post, out)
    = Done (pre ++ clip_stage mid ++ post,
            out ++ warnings_from (Z.of_nat (List.length pre) + 1) mid).
Proof.
  induction mid as [|x mid IH]; intros pre post out.
  - cbn; now rewrite app_nil_r.
  - cbn [List.length for_loop app].
    rewrite clip_body_middle.
    pose proof (IH (pre ++ [clamp x]) post
                  (out ++ warnings_from (Z.of_nat (List.length pre) + 1) [x]))
      as E.
    rewrite length_app, Nat2Z.inj_add, <- !app_assoc in E.
    cbn [app List.length Z.of_nat Pos.of_succ_nat] in E.
    etransitivity; [exact E|].
    cbn [warnings_from clip_stage map app].
    now rewrite app_nil_r.
Qed.

Lemma clip_to_limits_spec (v : list T) (n : Z) :
  n <= Z.of_nat (List.length v) ->
  clip_to_limits v n
  = Done (clip_stage (firstn (Z.to_nat n) v) ++ skipn (Z.to_nat n) v,
          warnings_from 1 (firstn (Z.to_nat n) v)).
Proof.
  intros Hn; unfold clip_to_limits, for_upto.
  pose proof (clip_loop (firstn (Z.to_nat n) v) [] (skipn (Z.to_nat n) v) [])
    as E.
  cbn [app List.length Z.of_nat Z.add] in E.
  rewrite firstn_skipn, firstn_length_le in E by lia.
  exact E.
Qed.

Lemma clip_to_limits_overrun (v : list T) (n : Z) :
  Z.of_nat (List.length v) < n -> clip_to_limits v n = Undefined.
Proof.
  intros Hn; unfold clip_to_limits, for_upto.
  replace (Z.to_nat n)
    with (List.length v + Datatypes.S (Z.to_nat n - List.length v - 1))%nat
    by lia.
  rewrite for_loop_app.
  pose proof (clip_loop v [] [] []) as E.
  cbn [app List.length Z.of_nat Z.add] in E.
  rewrite app_nil_r in E; unfold trace in *; rewrite E; cbn [bind for_loop].
  unfold clip_body.
  replace (0 + Z.of_nat (List.length v))
    with (Z.of_nat (List.length (clip_stage v ++ [])))
    by (rewrite app_nil_r; unfold clip_stage; rewrite length_map; lia).
  rewrite arr_get_beyond; reflexivity.
Qed.

Lemma clip_stage_length (v : list T) :
  List.length (clip_stage v) = List.length v.
Proof. unfold clip_stage; apply length_map. Qed.

(** The loop of [sendCommand] that pulls the mapped elements of the image. *)
Lemma pull_loop (image : list sample) (mm : list Z) :
  forall (mp mq : list Z) (pre mid post : list T),
    List.length pre = List.length mp ->
    List.length mid = List.length mm ->
    Forall (fun m => 0 <= m < Z.of_nat (List.length image)) mm ->
    for_loop (List.length mm) (Z.of_nat (List.length mp))
      (fun idx a =>
         m <- arr_get (mp ++ mm ++ mq) idx ;;
         f <- arr_get image m ;;
         arr_set a idx (of_sample f))
      (pre ++ mid ++ post)
    = Done (pre
              ++ map (fun m => of_sample (nth (Z.to_nat m) image sample_zero)) mm
              ++ post).
Proof.
  induction mm as [|m mm IH]; intros mp mq pre mid post Hpre Hmid Hrange.
  - destruct mid; [reflexivity | discriminate].
  - destruct mid as [|y mid]; [discriminate|].
    inversion Hrange as [|? ? Hm Hrest]; subst.
    cbn [List.length for_loop app map].
    rewrite arr_get_middle; cbn [bind].
    rewrite (arr_get_nth image m sample_zero) by exact Hm; cbn [bind].
    rewrite <- Hpre, arr_set_middle.
    set (y' := of_sample (nth (Z.to_nat m) image sample_zero)).
    pose proof (IH (mp ++ [m]) mq (pre ++ [y']) mid post) as E.
    rewrite !length_app, Nat2Z.inj_add, <- !app_assoc in E.
    cbn [app List.length Z.of_nat Pos.of_succ_nat] in E.
    rewrite <- Hpre in E.
    apply E; [reflexivity | | exact Hrest].
    simpl in Hmid; lia.
Qed.

End PipelineFacts.

(** ** The dispatcher *)

Section Dispatcher.

Context {T : Type} `{Scalar T}.

Lemma whole_vector (v : list T) (n : Z) :
  List.length v = Z.to_nat n ->
  n <= Z.of_nat (List.length v)
  /\ firstn (Z.to_nat n) v = v /\ skipn (Z.to_nat n) v = [].
Proof.
  intros Hlen; repeat split.
  - lia.
  - rewrite <- Hlen; apply firstn_all.
  - rewrite <- Hlen; apply skipn_all.
Qed.

Lemma normalize_inputs_whole (v : list T) (n : Z) (volume_factor : T) :
  List.length v = Z.to_nat n ->
  normalize_inputs v n volume_factor = Done (volume_stage volume_factor v).
Proof.
  intros Hlen; destruct (whole_vector v n Hlen) as (Hn & Hf & Hs).
  now rewrite normalize_inputs_spec, Hf, Hs, app_nil_r.
Qed.

Lemma microns_to_fractional_stroke_whole (v : list T) (n : Z) (max_stroke : T) :
  List.length v = Z.to_nat n ->
  microns_to_fractional_stroke v n max_stroke = Done (unit_stage max_stroke v).
Proof.
  intros Hlen; destruct (whole_vector v n Hlen) as (Hn & Hf & Hs).
  now rewrite microns_to_fractional_stroke_spec, Hf, Hs, app_nil_r.
Qed.

Lemma bias_inputs_whole (v : list T) (n : Z) :
  List.length v = Z.to_nat n -> bias_inputs v n = Done (bias_stage v).
Proof.
  intros Hlen; destruct (whole_vector v n Hlen) as (Hn & Hf & Hs).
  now rewrite bias_inputs_spec, Hf, Hs, app_nil_r.
Qed.

Lemma clip_to_limits_whole (v : list T) (n : Z) :
  List.length v = Z.to_nat n ->
  clip_to_limits v n = Done (clip_stage v, warnings_from 1 v).
Proof.
  intros Hlen; destruct (whole_vector v n Hlen) as (Hn & Hf & Hs).
  now rewrite clip_to_limits_spec, Hf, Hs, app_nil_r.
Qed.

Lemma optional_length (enabled : bool) (stage : list T -> list T) (v : list T) :
  (forall u, List.length (stage u) = List.length u) ->
  List.length (optional enabled stage v) = List.length v.
Proof. intros Hs; destruct enabled; simpl; auto. Qed.

Lemma unclipped_length (normalize fractional bias : bool)
      (max_stroke volume_factor : T) (v : list T) :
  List.length (unclipped normalize fractional bias max_stroke volume_factor v)
  = List.length v.
Proof.
  unfold unclipped.
  rewrite !optional_length; auto; intros u;
    unfold bias_stage, unit_stage, volume_stage; apply length_map.
Qed.

Lemma pull_input (image : list sample) (nbAct : Z) (mapping : list Z) :
  nbAct <= Z.of_nat (List.length mapping) ->
  Forall (fun m => 0 <= m < Z.of_nat (List.length image))
         (firstn (Z.to_nat nbAct) mapping) ->
  for_upto nbAct
    (fun idx a =>
       m <- arr_get mapping idx ;;
       f <- arr_get image m ;;
       arr_set a idx (of_sample f))
    (repeat (of_int 0) (Z.to_nat nbAct))
  = Done (mapped_input image nbAct mapping).
Proof.
  intros Hn Hrange; unfold for_upto, mapped_input.
  pose proof (pull_loop image (firstn (Z.to_nat nbAct) mapping) []
                (skipn (Z.to_nat nbAct) mapping) []
                (repeat (of_int 0) (Z.to_nat nbAct)) []) as E.
  cbn [app List.length Z.of_nat] in E.
  rewrite firstn_skipn, !app_nil_r, firstn_length_le in E by lia.
  apply E; [reflexivity | apply repeat_length | exact Hrange].
Qed.

End Dispatcher.

(** C2: [sendCommand] pulls [input[i] = frame[mapping[i]]] for every
    actuator and applies the stages in the fixed order volume
    normalisation (iff [nonorm] is not 1), unit conversion (iff
    [fractional] is not 1), bias removal (iff [nobias] is not 1) and, always
    and last, clipping; each switch only decides whether its own stage
    runs.  The clipped vector is what is sent, after the warnings. *)
Theorem sendCommand_is_pipeline {T : Type} `{Scalar T}
        (send_status : Z) (image : list sample) (nbAct : Z)
        (nobias nonorm fractional : Z) (max_stroke volume_factor : T)
        (mapping : list Z) :
  nbAct <= Z.of_nat (List.length mapping) ->
  Forall (fun m => 0 <= m < Z.of_nat (List.length image))
         (firstn (Z.to_nat nbAct) mapping) ->
  let input := mapped_input image nbAct mapping in
  let staged :=
    optional (negb (nobias =? 1)) bias_stage
      (optional (negb (fractional =? 1)) (unit_stage max_stroke)
         (optional (negb (nonorm =? 1)) (volume_stage volume_factor) input)) in
  sendCommand send_status image nbAct nobias nonorm fractional max_stroke
    volume_factor mapping
  = Done (send_status,
          warnings_from 1 staged ++ [Asdk_send (clip_stage staged) send_status])
  /\ clip_stage staged
     = pipeline (negb (nonorm =? 1)) (fractional =? 1) (negb (nobias =? 1))
         max_stroke volume_factor input.
Proof.
  intros Hn Hrange input staged.
  assert (Hlen : List.length input = Z.to_nat nbAct).
  { unfold input, mapped_input.
    rewrite length_map, firstn_length_le by lia; reflexivity. }
  split.
  - unfold sendCommand.
    rewrite pull_input by assumption; cbn [bind]; fold input.
    unfold staged, optional.
    destruct (negb (nonorm =? 1)); cbn [bind];
      [rewrite normalize_inputs_whole by exact Hlen; cbn [bind]|];
      (destruct (negb (fractional =? 1)); cbn [bind];
       [rewrite microns_to_fractional_stroke_whole
          by (unfold volume_stage; rewrite ?length_map; exact Hlen);
        cbn [bind]|]);
      (destruct (negb (nobias =? 1)); cbn [bind];
       [rewrite bias_inputs_whole
          by (unfold unit_stage, volume_stage; rewrite ?length_map; exact Hlen);
        cbn [bind]|]);
      rewrite clip_to_limits_whole
        by (unfold bias_stage, unit_stage, volume_stage; rewrite ?length_map;
            exact Hlen);
      reflexivity.
  - reflexivity.
Qed.

(** ** Clipping twice *)

Section ClipTwice.

Context {T : Type} `{Scalar T}.

(** What the comparisons must say of the two bounds themselves. *)
Hypothesis one_not_above : sgt (of_int 1) (of_int 1) = false.
Hypothesis one_not_below : slt (of_int 1) (of_int (-1)) = false.
Hypothesis minus_one_not_above : sgt (of_int (-1)) (of_int 1) = false.
Hypothesis minus_one_not_below : slt (of_int (-1)) (of_int (-1)) = false.

Lemma clamp_idempotent (x : T) : clamp (clamp x) = clamp x.
Proof.
  unfold clamp.
  destruct (sgt x (of_int 1)) eqn:Ea.
  - now rewrite one_not_above, one_not_below.
  - destruct (slt x (of_int (-1))) eqn:Eb.
    + now rewrite minus_one_not_above, minus_one_not_below.
    + now rewrite Ea, Eb.
Qed.

Lemma clamp_not_saturated (x : T) : saturated (clamp x) = false.
Proof.
  unfold saturated, clamp.
  destruct (sgt x (of_int 1)) eqn:Ea.
  - now rewrite one_not_above, one_not_below.
  - destruct (slt x (of_int (-1))) eqn:Eb.
    + now rewrite minus_one_not_above, minus_one_not_below.
    + now rewrite Ea, Eb.
Qed.

Lemma clip_stage_idempotent (v : list T) :
  clip_stage (clip_stage v) = clip_stage v.
Proof.
  unfold clip_stage; rewrite map_map.
  apply map_ext; intros x; apply clamp_idempotent.
Qed.

Lemma clip_stage_quiet (v : list T) :
  forall first, warnings_from first (clip_stage v) = [].
Proof.
  induction v as [|x v IH]; intros first; [reflexivity|].
  cbn [clip_stage map warnings_from].
  rewrite clamp_not_saturated; cbn [app].
  apply IH.
Qed.

Lemma clip_to_limits_twice (v : list T) (nbAct : Z) :
  (r <- clip_to_limits v nbAct ;; clip_to_limits (fst r) nbAct)
  = (r <- clip_to_limits v nbAct ;; Done (fst r, [])).
Proof.
  destruct (Z.le_gt_cases nbAct (Z.of_nat (List.length v))) as [Hn|Hn].
  - rewrite clip_to_limits_spec by exact Hn; cbn [bind fst].
    set (n := Z.to_nat nbAct).
    assert (Hk : List.length (clip_stage (firstn n v)) = n).
    { rewrite clip_stage_length; apply firstn_length_le; lia. }
    rewrite clip_to_limits_spec
      by (rewrite length_app, clip_stage_length, <- length_app, firstn_skipn;
          exact Hn).
    fold n.
    rewrite firstn_app, skipn_app, Hk, Nat.sub_diag.
    set (u := clip_stage (firstn n v)) in *.
    assert (Hf : firstn n u = u) by (rewrite <- Hk; apply firstn_all).
    assert (Hs : skipn n u = []) by (rewrite <- Hk; apply skipn_all).
    rewrite Hf, Hs; subst u.
    cbn [firstn skipn app]; rewrite app_nil_r.
    now rewrite clip_stage_idempotent, clip_stage_quiet.
  - rewrite clip_to_limits_overrun by lia; reflexivity.
Qed.

End ClipTwice.

(** C9: applying [clip_to_limits] to a vector it has already clipped
    returns that same vector and prints no warning, for binary64 scalars
    (NaN and infinities included) and for exact ones; the first application
    is defined whenever [nbAct] does not exceed the length of the vector. *)
Theorem clip_to_limits_idempotent :
  (forall (v : list Binary64.double) (nbAct : Z),
      (r <- clip_to_limits v nbAct ;; clip_to_limits (fst r) nbAct)
      = (r <- clip_to_limits v nbAct ;; Done (fst r, []))
      /\ (nbAct <= Z.of_nat (List.length v) ->
          exists v1 out, clip_to_limits v nbAct = Done (v1, out)
                         /\ clip_to_limits v1 nbAct = Done (v1, [])))
  /\ (forall (v : list Q) (nbAct : Z),
         (r <- @clip_to_limits Q exact_scalar v nbAct ;;
          @clip_to_limits Q exact_scalar (fst r) nbAct)
         = (r <- @clip_to_limits Q exact_scalar v nbAct ;; Done (fst r, []))).
Proof.
  split.
  - intros v nbAct.
    assert (E : (r <- clip_to_limits v nbAct ;; clip_to_limits (fst r) nbAct)
                = (r <- clip_to_limits v nbAct ;; Done (fst r, [])))
      by (apply clip_to_limits_twice; reflexivity).
    split; [exact E|].
    intros Hn.
    rewrite clip_to_limits_spec in E |- * by exact Hn.
    cbn [bind fst] in E.
    eexists; eexists; split; [reflexivity | exact E].
  - intros v nbAct.
    apply (@clip_to_limits_twice Q exact_scalar); reflexivity.
Qed.

Lemma clip_to_limits_idempotent_witness :
  let v := [Binary64.of_int 3; S754_nan; S754_infinity true; Binary64.zero] in
  exists v1 out, clip_to_limits v 4 = Done (v1, out)
                 /\ clip_to_limits v1 4 = Done (v1, []).
Proof.
  intros v.
  apply (proj2 (proj1 clip_to_limits_idempotent v 4)).
  simpl; lia.
Defined.

(** ** Binary64 comparisons *)

Lemma SFcompare_antisym (x y : spec_float) (c : comparison) :
  SFcompare x y = Some c -> SFcompare y x = Some (CompOpp c).
Proof.
  destruct x as [sx|sx| |sx mx ex], y as [sy|sy| |sy my ey];
    cbn [SFcompare]; intros Hc; try discriminate;
    injection Hc as <-; try (destruct sx; reflexivity);
    try (destruct sy; reflexivity);
    try (destruct sx, sy; reflexivity).
  destruct sx, sy; cbn [CompOpp]; try reflexivity;
    rewrite (Z.compare_antisym ex ey);
    destruct (ex ?= ey); cbn [CompOpp]; try reflexivity;
    rewrite (Pos.compare_cont_antisym mx my Eq); reflexivity.
Qed.

Lemma SFcompare_defined (x y : spec_float) :
  Binary64.is_nan x = false -> Binary64.is_nan y = false -> exists c, SFcompare x y = Some c.
Proof.
  destruct x, y; cbn; intros Hx Hy; try discriminate; eexists; reflexivity.
Qed.

Lemma not_below_is_above (x y : spec_float) :
  Binary64.is_nan x = false -> Binary64.is_nan y = false -> SFltb x y = false -> SFleb y x = true.
Proof.
  intros Hx Hy; unfold SFltb, SFleb.
  destruct (SFcompare_defined x y Hx Hy) as [c Hc].
  rewrite Hc, (SFcompare_antisym x y c Hc).
  destruct c; cbn; congruence.
Qed.

Lemma clamp_in_range (x : Binary64.double) :
  Binary64.is_nan x = false ->
  Binary64.in_range Binary64.minus_one Binary64.one (clamp x) = true.
Proof.
  intros Hx; unfold clamp; cbn [sgt slt double_scalar].
  unfold Binary64.gt, Binary64.lt.
  change (of_int 1) with Binary64.one.
  change (of_int (-1)) with Binary64.minus_one.
  destruct (SFltb Binary64.one x) eqn:Ea; [reflexivity|].
  destruct (SFltb x Binary64.minus_one) eqn:Eb; [reflexivity|].
  unfold Binary64.in_range.
  rewrite (not_below_is_above x Binary64.minus_one), (not_below_is_above Binary64.one x);
    auto.
Qed.

Lemma clamp_nan_free (x : Binary64.double) :
  Binary64.is_nan x = false -> Binary64.is_nan (clamp x) = false.
Proof.
  intros Hx; unfold clamp.
  destruct (sgt x (of_int 1)); [reflexivity|].
  destruct (slt x (of_int (-1))); [reflexivity | exact Hx].
Qed.

Lemma saturated_exceeds_one (x : Binary64.double) :
  saturated x = Binary64.exceeds_one x.
Proof.
  unfold saturated, Binary64.exceeds_one; cbn [sgt slt double_scalar].
  unfold Binary64.gt, Binary64.lt.
  change (of_int 1) with Binary64.one.
  change (of_int (-1)) with Binary64.minus_one.
  destruct x as [s|s| |s m e]; try (destruct s; reflexivity); try reflexivity.
  destruct s; unfold SFltb, Binary64.one, Binary64.minus_one;
    cbn [SFcompare SFabs]; [|now rewrite orb_false_r].
  rewrite (Z.compare_antisym e (-52)).
  destruct (e ?= -52); cbn [CompOpp orb]; try reflexivity.
  rewrite (Pos.compare_cont_antisym m 4503599627370496 Eq); reflexivity.
Qed.

(** ** Counting the warnings *)

Section Warnings.

Context {T : Type} `{Scalar T}.

Lemma warnings_for_app (k : Z) (a b : trace) :
  warnings_for k (a ++ b) = (warnings_for k a + warnings_for k b)%nat.
Proof. unfold warnings_for; now rewrite filter_app, length_app. Qed.

Lemma warnings_from_count (v : list T) :
  forall (first k : Z),
    warnings_for k (warnings_from first v)
    = if (first <=? k) && (k <? first + Z.of_nat (List.length v))
      then (if saturated (nth (Z.to_nat (k - first)) v (of_int 0))
            then 1%nat else 0%nat)
      else 0%nat.
Proof.
  induction v as [|x v IH]; intros first k.
  - cbn [warnings_from List.length Z.of_nat].
    destruct (Z.leb_spec first k), (Z.ltb_spec k (first + 0)); try reflexivity; lia.
  - cbn [warnings_from]; rewrite warnings_for_app, IH.
    cbn [List.length]; rewrite Nat2Z.inj_succ.
    destruct (Z.eq_dec k first) as [->|Hne].
    + rewrite Z.sub_diag; cbn [Z.to_nat nth].
      destruct (Z.leb_spec first first); [|lia].
      destruct (Z.ltb_spec first (first + Z.succ (Z.of_nat (List.length v)))); [|lia].
      destruct (Z.leb_spec (first + 1) first); [lia|].
      cbn [andb].
      destruct (saturated x); unfold warnings_for; cbn [filter List.length];
        rewrite ?Z.eqb_refl; reflexivity.
    + match goal with
      | |- (warnings_for k ?a + _)%nat = _ =>
          assert (E0 : warnings_for k a = 0%nat)
      end.
      { destruct (saturated x); unfold warnings_for; cbn [filter List.length];
          [|reflexivity].
        destruct (Z.eqb_spec first k); [congruence | reflexivity]. }
      rewrite E0; cbn [Nat.add].
      destruct (Z.leb_spec (first + 1) k), (Z.leb_spec first k); try lia;
        cbn [andb]; try reflexivity.
      replace (first + 1 + Z.of_nat (List.length v))
          with (first + Z.succ (Z.of_nat (List.length v))) by lia.
      destruct (Z.ltb_spec k (first + Z.succ (Z.of_nat (List.length v))));
        [|reflexivity].
      replace (Z.to_nat (k - first))
        with (Datatypes.S (Z.to_nat (k - (first + 1)))) by lia.
      reflexivity.
Qed.

Lemma warnings_from_labels (v : list T) :
  forall (first : Z) (e : event T sample),
    In e (warnings_from first v) ->
    exists n, e = Print_saturated n
              /\ first <= n < first + Z.of_nat (List.length v).
Proof.
  induction v as [|x v IH]; intros first e Hin; [destruct Hin|].
  cbn [warnings_from] in Hin; apply in_app_or in Hin.
  cbn [List.length]; rewrite Nat2Z.inj_succ.
  destruct Hin as [Hin|Hin].
  - destruct (saturated x); [|destruct Hin].
    destruct Hin as [<-|[]]; exists first; split; [reflexivity | lia].
  - destruct (IH _ _ Hin) as (n & -> & Hn); exists n; split; [reflexivity | lia].
Qed.

End Warnings.

(** ** What clipping guarantees on binary64 *)

Lemma firstn_clipped {T : Type} `{Scalar T} (v : list T) (n : nat) :
  (n <= List.length v)%nat ->
  firstn n (clip_stage (firstn n v) ++ skipn n v) = clip_stage (firstn n v).
Proof.
  intros Hn.
  assert (Hk : List.length (clip_stage (firstn n v)) = n)
    by (rewrite clip_stage_length; now apply firstn_length_le).
  rewrite firstn_app, Hk, Nat.sub_diag; cbn [firstn]; rewrite app_nil_r.
  rewrite <- Hk at 1; apply firstn_all.
Qed.

(** X1: as long as none of the first [nbAct] values is a NaN, every one of
    them is within [-1, 1] after [clip_to_limits], the warnings name actuator
    [idx + 1] exactly once when the magnitude of value [idx] exceeded 1 and
    not at all otherwise, and nothing else is printed. *)
Lemma clip_to_limits_without_nan (v : list Binary64.double) (nbAct : Z) :
  nbAct <= Z.of_nat (List.length v) ->
  Forall (fun x => Binary64.is_nan x = false) (firstn (Z.to_nat nbAct) v) ->
  exists v' out,
    clip_to_limits v nbAct = Done (v', out)
    /\ List.length v' = List.length v
    /\ Forall (fun x => Binary64.in_range Binary64.minus_one Binary64.one x = true)
              (firstn (Z.to_nat nbAct) v')
    /\ (forall idx, 0 <= idx < nbAct ->
          warnings_for (idx + 1) out
          = if Binary64.exceeds_one (nth (Z.to_nat idx) v Binary64.zero)
            then 1%nat else 0%nat)
    /\ (forall e, In e out ->
          exists idx, 0 <= idx < nbAct /\ e = Print_saturated (idx + 1)).
Proof.
  intros Hn Hnan.
  rewrite clip_to_limits_spec by exact Hn.
  set (n := Z.to_nat nbAct) in *.
  assert (Hk : List.length (firstn n v) = n) by (apply firstn_length_le; lia).
  eexists; eexists; split; [reflexivity|]; repeat split.
  - rewrite length_app, clip_stage_length, <- length_app, firstn_skipn.
    reflexivity.
  - rewrite firstn_clipped by lia.
    unfold clip_stage; apply Forall_map.
    eapply Forall_impl; [|exact Hnan].
    intros x Hx; now apply clamp_in_range.
  - intros idx Hidx.
    rewrite warnings_from_count, Hk.
    destruct (Z.leb_spec 1 (idx + 1)); [|lia].
    destruct (Z.ltb_spec (idx + 1) (1 + Z.of_nat n)); [|lia].
    cbn [andb].
    replace (idx + 1 - 1) with idx by lia.
    rewrite saturated_exceeds_one.
    change (of_int 0) with Binary64.zero.
    rewrite <- (firstn_skipn n v) at 2.
    rewrite app_nth1 by lia; reflexivity.
  - intros e Hin.
    destruct (warnings_from_labels _ _ _ Hin) as (k & -> & Hk').
    exists (k - 1); split; [lia | f_equal; lia].
Qed.

(** C1: a NaN is neither above 1 nor below -1, so [clip_to_limits] leaves
    it in place without a warning, and [sendCommand] dispatches it: an
    all-zero image with [max_stroke = 0] makes the unit conversion compute
    0/0, and the vector sent to the device holds NaN, which is not within
    [-1, 1]. *)
Theorem clip_to_limits_passes_nan :
  clip_to_limits [Binary64.nan] 1 = Done ([Binary64.nan], [])
  /\ Binary64.in_range Binary64.minus_one Binary64.one Binary64.nan = false
  /\ sendCommand 0 (repeat Binary64.zero 121) 2 0 0 0
       Binary64.zero (Binary64.of_int 1) [60; 61]
     = Done (0, [Asdk_send [Binary64.nan; Binary64.nan] 0]).
Proof.
  repeat split; vm_compute; reflexivity.
Qed.

(** ** Bias removal: exact arithmetic and binary64 *)












(** ** The actuator mapping *)

Lemma to_int32_small (z : Z) : - 2 ^ 31 <= z < 2 ^ 31 -> to_int32 z = z.
Proof.
  intros Hz; unfold to_int32.
  rewrite Z.mod_small; lia.
Qed.

Lemma emit_row_step (base : Z) (pix : list Z) (from count : nat) :
  emit_row base pix from (Datatypes.S count)
  = (if nth from pix 0 >? 0 then [base + Z.of_nat from] else [])
      ++ emit_row base pix (Datatypes.S from) count.
Proof. reflexivity. Qed.

Lemma emit_row_range (base : Z) (pix : list Z) (count : nat) :
  forall (from : nat) (i : Z),
    In i (emit_row base pix from count) ->
    base + Z.of_nat from <= i < base + Z.of_nat from + Z.of_nat count.
Proof.
  induction count as [|count IH]; intros from i Hin; [destruct Hin|].
  rewrite emit_row_step in Hin; apply in_app_or in Hin.
  destruct Hin as [Hin|Hin].
  - destruct (nth from pix 0 >? 0); [|destruct Hin].
    destruct Hin as [<-|[]]; lia.
  - apply IH in Hin; lia.
Qed.

Lemma emit_row_NoDup (base : Z) (pix : list Z) (count : nat) :
  forall from : nat, NoDup (emit_row base pix from count).
Proof.
  induction count as [|count IH]; intros from; [constructor|].
  rewrite emit_row_step.
  destruct (nth from pix 0 >? 0); cbn [app]; [|apply IH].
  constructor; [|apply IH].
  intros Hin; apply emit_row_range in Hin; lia.
Qed.

Lemma emit_row_length (base : Z) (seg : list Z) :
  forall pre : list Z,
    List.length (emit_row base (pre ++ seg) (List.length pre) (List.length seg))
    = count_positive seg.
Proof.
  induction seg as [|p seg IH]; intros pre; [reflexivity|].
  cbn [List.length]; rewrite emit_row_step, length_app.
  rewrite nth_middle.
  pose proof (IH (pre ++ [p])) as E.
  rewrite <- app_assoc, length_app in E; cbn [app List.length] in E.
  rewrite Nat.add_1_r in E; rewrite E.
  unfold count_positive; cbn [filter].
  destruct (p >? 0); reflexivity.
Qed.

Lemma emit_row_ext (base : Z) (pix pix' : list Z) (count : nat) :
  forall from : nat,
    (forall c, (from <= c < from + count)%nat -> nth c pix 0 = nth c pix' 0) ->
    emit_row base pix from count = emit_row base pix' from count.
Proof.
  induction count as [|count IH]; intros from Hext; [reflexivity|].
  rewrite !emit_row_step, Hext by lia.
  f_equal; apply IH; intros c Hc; apply Hext; lia.
Qed.

Lemma flat_map_seq_ext {B : Type} (f g : nat -> list B) (count : nat) :
  forall from : nat,
    (forall c, (from <= c < from + count)%nat -> f c = g c) ->
    flat_map f (seq from count) = flat_map g (seq from count).
Proof.
  induction count as [|count IH]; intros from Hext; [reflexivity|].
  cbn [seq flat_map]; rewrite Hext by lia.
  f_equal; apply IH; intros c Hc; apply Hext; lia.
Qed.

(** The row buffer that [fits_read_pix] fills for the 0-based row [row]. *)
Lemma scan_row_emit (pixels : list Z) (width : Z) (row : nat) :
  0 <= width ->
  scan_row pixels width (Z.of_nat row)
  = emit_row (Z.of_nat row * width)
      (firstn (Z.to_nat width) (skipn (Z.to_nat (Z.of_nat row * width)) pixels))
      0 (Z.to_nat width).
Proof.
  intros Hw; unfold scan_row, emit_row.
  apply flat_map_seq_ext; intros c Hc.
  assert (Hk : 0 <= Z.of_nat row * width) by (apply Z.mul_nonneg_nonneg; lia).
  rewrite nth_firstn, nth_skipn.
  destruct (Nat.ltb_spec c (Z.to_nat width)); [|lia].
  replace (Z.to_nat (Z.of_nat row * width + Z.of_nat c))
    with (Z.to_nat (Z.of_nat row * width) + c)%nat by lia.
  reflexivity.
Qed.

Section MappingLoops.

Context {T : Type} `{Scalar T}.

(** The inner loop over the columns of one row. *)
Lemma mapping_cols (pix : list Z) (row width : Z) (suf : list Z) :
  forall (pre done rest : list Z) (i j : Z),
    pix = pre ++ suf ->
    i = Z.of_nat (List.length pre) ->
    j = Z.of_nat (List.length done) ->
    let new := emit_row ((row - 1) * width) pix (List.length pre)
                        (List.length suf) in
    (List.length new <= List.length rest)%nat ->
    (forall c, Z.of_nat (List.length pre) <= c
               < Z.of_nat (List.length pre) + Z.of_nat (List.length suf) ->
               - 2 ^ 31 <= (row - 1) * width + c < 2 ^ 31) ->
    for_loop (List.length suf) i (mapping_body pix row width) (done ++ rest, j)
    = Done (done ++ new ++ skipn (List.length new) rest,
            j + Z.of_nat (List.length new)).
Proof.
  induction suf as [|x suf IH]; intros pre done rest i j Hpix Hi Hj new Hfit Hint.
  - cbn; now rewrite Z.add_0_r.
  - cbn [List.length for_loop].
    unfold mapping_body at 1.
    rewrite Hpix at 1; subst i; rewrite arr_get_middle; cbn [bind].
    assert (Hnew : new = (if x >? 0 then [(row - 1) * width
                                           + Z.of_nat (List.length pre)]
                          else [])
                           ++ emit_row ((row - 1) * width) pix
                                (Datatypes.S (List.length pre))
                                (List.length suf)).
    { unfold new; cbn [List.length]; rewrite emit_row_step.
      rewrite Hpix at 1; now rewrite nth_middle. }
    assert (Hpix' : pix = (pre ++ [x]) ++ suf) by now rewrite <- app_assoc.
    assert (Hlen' : List.length (pre ++ [x]) = Datatypes.S (List.length pre))
      by (rewrite length_app; simpl; lia).
    cbn [List.length] in Hint.
    destruct (x >? 0) eqn:Ex.
    + rewrite Hnew in Hfit |- *; cbn [app List.length] in Hfit |- *.
      destruct rest as [|y rest]; [simpl in Hfit; lia|].
      rewrite to_int32_small by (apply Hint; lia).
      subst j; rewrite arr_set_middle; cbn [bind skipn].
      set (v := (row - 1) * width + Z.of_nat (List.length pre)).
      pose proof (IH (pre ++ [x]) (done ++ [v]) rest
                    (Z.of_nat (List.length pre) + 1)
                    (Z.of_nat (List.length done) + 1) Hpix') as E.
      rewrite Hlen' in E; cbn zeta in E.
      rewrite <- !app_assoc in E; cbn [app] in E.
      rewrite E.
      * cbn [skipn List.length app]; f_equal; f_equal; lia.
      * lia.
      * rewrite length_app; simpl; lia.
      * simpl in Hfit; lia.
      * intros c Hc; apply Hint; lia.
    + rewrite Hnew in Hfit |- *; cbn [app] in Hfit |- *.
      pose proof (IH (pre ++ [x]) done rest
                    (Z.of_nat (List.length pre) + 1) j Hpix') as E.
      rewrite Hlen' in E; cbn zeta in E.
      apply E; [lia | exact Hj | exact Hfit |].
      intros c Hc; apply Hint; lia.
Qed.

End MappingLoops.

Lemma scan_rows_step (pixels : list Z) (width : Z) (k : nat) :
  scan_rows pixels width (Datatypes.S k)
  = scan_row pixels width (Z.of_nat k) ++ scan_rows pixels width k.
Proof.
  unfold scan_rows.
  rewrite seq_S, rev_app_distr; reflexivity.
Qed.

Lemma firstn_plus {A : Type} (n m : nat) (l : list A) :
  firstn (n + m) l = firstn n l ++ firstn m (skipn n l).
Proof.
  rewrite firstn_skipn_comm.
  rewrite <- (firstn_skipn n (firstn (n + m) l)) at 1.
  rewrite firstn_firstn, Nat.min_l by lia; reflexivity.
Qed.

Lemma count_positive_app (a b : list Z) :
  count_positive (a ++ b) = (count_positive a + count_positive b)%nat.
Proof. unfold count_positive; now rewrite filter_app, length_app. Qed.

Lemma row_buffer_length (pixels : list Z) (width : Z) (k : nat) :
  0 <= width ->
  Z.of_nat (Datatypes.S k) * width <= Z.of_nat (List.length pixels) ->
  List.length
    (firstn (Z.to_nat width) (skipn (Z.to_nat (Z.of_nat k * width)) pixels))
  = Z.to_nat width.
Proof.
  intros Hw Hfit.
  assert (Hk : 0 <= Z.of_nat k * width) by (apply Z.mul_nonneg_nonneg; lia).
  rewrite firstn_length_le; [reflexivity|].
  rewrite length_skipn; lia.
Qed.

Lemma scan_row_range (pixels : list Z) (width : Z) (row : nat) (i : Z) :
  0 <= width ->
  In i (scan_row pixels width (Z.of_nat row)) ->
  Z.of_nat row * width <= i < Z.of_nat row * width + width.
Proof.
  intros Hw Hin.
  rewrite scan_row_emit in Hin by exact Hw.
  apply emit_row_range in Hin; lia.
Qed.

Lemma scan_rows_range (pixels : list Z) (width : Z) (k : nat) (i : Z) :
  0 <= width ->
  In i (scan_rows pixels width k) -> 0 <= i < Z.of_nat k * width.
Proof.
  intros Hw; induction k as [|k IH]; intros Hin; [destruct Hin|].
  rewrite scan_rows_step in Hin; apply in_app_or in Hin.
  assert (Hk : 0 <= Z.of_nat k * width) by (apply Z.mul_nonneg_nonneg; lia).
  destruct Hin as [Hin|Hin].
  - apply scan_row_range in Hin; [lia | exact Hw].
  - apply IH in Hin; lia.
Qed.

Lemma scan_rows_NoDup (pixels : list Z) (width : Z) (k : nat) :
  0 <= width -> NoDup (scan_rows pixels width k).
Proof.
  intros Hw; induction k as [|k IH]; [constructor|].
  rewrite scan_rows_step; apply NoDup_app.
  - rewrite scan_row_emit by exact Hw; apply emit_row_NoDup.
  - exact IH.
  - intros i Hrow Hrest.
    apply scan_row_range in Hrow; [|exact Hw].
    apply scan_rows_range in Hrest; [lia | exact Hw].
Qed.

Lemma scan_row_length (pixels : list Z) (width : Z) (k : nat) :
  0 <= width ->
  Z.of_nat (Datatypes.S k) * width <= Z.of_nat (List.length pixels) ->
  List.length (scan_row pixels width (Z.of_nat k))
  = count_positive
      (firstn (Z.to_nat width) (skipn (Z.to_nat (Z.of_nat k * width)) pixels)).
Proof.
  intros Hw Hfit.
  rewrite scan_row_emit by exact Hw.
  set (pix := firstn (Z.to_nat width)
                (skipn (Z.to_nat (Z.of_nat k * width)) pixels)).
  pose proof (emit_row_length (Z.of_nat k * width) pix []) as E.
  cbn [app List.length] in E.
  unfold pix in E at 2; rewrite row_buffer_length in E by assumption.
  exact E.
Qed.

Lemma scan_rows_length (pixels : list Z) (width : Z) (k : nat) :
  0 <= width ->
  Z.of_nat k * width <= Z.of_nat (List.length pixels) ->
  List.length (scan_rows pixels width k)
  = count_positive (firstn (Z.to_nat (Z.of_nat k * width)) pixels).
Proof.
  intros Hw; induction k as [|k IH]; intros Hfit; [reflexivity|].
  assert (Hk : 0 <= Z.of_nat k * width) by (apply Z.mul_nonneg_nonneg; lia).
  rewrite scan_rows_step, length_app, scan_row_length, IH by (assumption || lia).
  replace (Z.to_nat (Z.of_nat (Datatypes.S k) * width))
    with (Z.to_nat (Z.of_nat k * width) + Z.to_nat width)%nat by lia.
  rewrite firstn_plus, count_positive_app; lia.
Qed.

Lemma fits_read_pix_row (img : fits_image) (k : nat) :
  0 <= naxes0 img ->
  Z.of_nat (Datatypes.S k) * naxes0 img <= Z.of_nat (List.length (pixels img)) ->
  fits_read_pix img (Z.of_nat (Datatypes.S k)) (naxes0 img)
  = Some (firstn (Z.to_nat (naxes0 img))
            (skipn (Z.to_nat (Z.of_nat k * naxes0 img)) (pixels img))).
Proof.
  intros Hw Hfit; unfold fits_read_pix.
  assert (Hk : 0 <= Z.of_nat k * naxes0 img) by (apply Z.mul_nonneg_nonneg; lia).
  replace (Z.of_nat (Datatypes.S k) - 1) with (Z.of_nat k) by lia.
  destruct (Z.leb_spec 0 (Z.of_nat k * naxes0 img)); [|lia].
  destruct (Z.leb_spec 0 (naxes0 img)); [|lia].
  destruct (Z.leb_spec (Z.of_nat k * naxes0 img + naxes0 img)
                       (Z.of_nat (List.length (pixels img)))); [|lia].
  reflexivity.
Qed.

(** The outer loop over the rows, from row [k] down to row 1. *)
Lemma mapping_rows_scan (img : fits_image) (k : nat) :
  forall (done rest : list Z),
    0 <= naxes0 img ->
    Z.of_nat k * naxes0 img <= Z.of_nat (List.length (pixels img)) ->
    Z.of_nat k * naxes0 img <= 2 ^ 31 ->
    let new := scan_rows (pixels img) (naxes0 img) k in
    (List.length new <= List.length rest)%nat ->
    mapping_rows img k (Z.of_nat k) (done ++ rest, Z.of_nat (List.length done))
    = Done (done ++ new ++ skipn (List.length new) rest,
            Z.of_nat (List.length done) + Z.of_nat (List.length new), false).
Proof.
  induction k as [|k IH]; intros done rest Hw Hfit Hint new Hroom.
  - cbn; now rewrite Z.add_0_r.
  - assert (Hk : 0 <= Z.of_nat k * naxes0 img)
      by (apply Z.mul_nonneg_nonneg; lia).
    cbn [mapping_rows].
    rewrite fits_read_pix_row by assumption.
    set (pix := firstn (Z.to_nat (naxes0 img))
                  (skipn (Z.to_nat (Z.of_nat k * naxes0 img)) (pixels img))).
    assert (Hpix : List.length pix = Z.to_nat (naxes0 img))
      by (apply row_buffer_length; assumption).
    set (row := scan_row (pixels img) (naxes0 img) (Z.of_nat k)).
    assert (Hrow : row = emit_row ((Z.of_nat (Datatypes.S k) - 1) * naxes0 img)
                           pix 0 (List.length pix)).
    { unfold row; rewrite scan_row_emit by exact Hw.
      rewrite Hpix; f_equal; lia. }
    assert (Hnew : new = row ++ scan_rows (pixels img) (naxes0 img) k)
      by apply scan_rows_step.
    rewrite Hnew, length_app in Hroom.
    unfold for_upto; rewrite <- Hpix.
    pose proof (@mapping_cols pix (Z.of_nat (Datatypes.S k)) (naxes0 img) pix
                  [] done rest 0 (Z.of_nat (List.length done))
                  eq_refl eq_refl eq_refl) as E.
    cbn zeta in E; cbn [List.length] in E; rewrite <- Hrow in E.
    rewrite E; [|lia|intros c Hc; cbn [Z.of_nat] in Hc; lia].
    cbn [bind].
    replace (Z.of_nat (Datatypes.S k) - 1) with (Z.of_nat k) by lia.
    pose proof (IH (done ++ row) (skipn (List.length row) rest) Hw) as E'.
    cbn zeta in E'.
    rewrite length_app, Nat2Z.inj_add, <- app_assoc in E'.
    rewrite E' by (rewrite ?length_skipn; lia).
    rewrite Hnew, length_app, skipn_skipn, <- !app_assoc, Nat2Z.inj_add.
    rewrite (Nat.add_comm (List.length (scan_rows _ _ _))).
    now rewrite Z.add_assoc.
Qed.

(** C4: for a 2-D mask whose [width * height] pixels are all in the file
    and are fewer than 2^31, so that [ii], [ij] and every index fit an
    [int], [get_actuator_mapping] stores, from the
    start of a buffer with room for them, the indices [row * width + column]
    of the strictly positive cells, rows from the last to the first and
    columns from left to right; their number is the number of positive
    cells, no index is stored twice, and each lies in [0, width * height). *)
Theorem get_actuator_mapping_scan {T : Type} `{Scalar T}
        (img : fits_image) (pix0 : pointer) (nbAct : Z) (buffer : list Z) :
  hdu_is_image img = true ->
  naxis img = 2 ->
  0 <= naxes0 img ->
  0 <= naxes1 img ->
  Z.of_nat (List.length (pixels img)) = naxes0 img * naxes1 img ->
  naxes0 img * naxes1 img < 2 ^ 31 ->
  (count_positive (pixels img) <= List.length buffer)%nat ->
  let mapping := scan_grid (pixels img) (naxes0 img) (naxes1 img) in
  get_actuator_mapping (Some img) pix0 nbAct buffer
  = Done (0, mapping ++ skipn (List.length mapping) buffer, [])
  /\ List.length mapping = count_positive (pixels img)
  /\ NoDup mapping
  /\ Forall (fun i => 0 <= i < naxes0 img * naxes1 img) mapping.
Proof.
  intros Himg Haxis Hw Hh Hlen Hint Hroom mapping.
  assert (Hmul : Z.of_nat (Z.to_nat (naxes1 img)) * naxes0 img
                 = naxes0 img * naxes1 img) by (rewrite Z2Nat.id; lia).
  assert (Hcount : List.length mapping = count_positive (pixels img)).
  { unfold mapping, scan_grid.
    rewrite scan_rows_length by lia.
    rewrite Hmul, <- Hlen, Nat2Z.id, firstn_all; reflexivity. }
  repeat split.
  - unfold get_actuator_mapping.
    rewrite Himg, Haxis; cbn [negb Z.eqb Pos.eqb].
    pose proof (@mapping_rows_scan img (Z.to_nat (naxes1 img)) [] buffer Hw)
      as E.
    cbn zeta in E; cbn [app List.length Z.of_nat Z.add] in E.
    rewrite Z2Nat.id in E by exact Hh.
    rewrite E; [reflexivity | lia | lia |].
    fold (scan_grid (pixels img) (naxes0 img) (naxes1 img)); fold mapping; lia.
  - exact Hcount.
  - apply scan_rows_NoDup; exact Hw.
  - apply Forall_forall; intros i Hin.
    apply scan_rows_range in Hin; [lia | exact Hw].
Qed.

(** ** Traces *)

Section TraceFacts.

Context {T F : Type}.

Implicit Types (tr a b pre post : list (event T F)) (e : event T F).

Lemma plain_not_failed e : is_plain e = true -> is_failed_send e = false.
Proof. destruct e; cbn; congruence. Qed.

Lemma plain_not_stop e : is_plain e = true -> is_stop_seen e = false.
Proof. destruct e as [| | | | | | | | | | | | | | | | [|]]; cbn; congruence. Qed.

Lemma failed_send_ends_plain a b :
  forallb is_plain a = true -> failed_send_ends (a ++ b) = failed_send_ends b.
Proof.
  induction a as [|e a IH]; intros Ha; [reflexivity|].
  cbn [forallb] in Ha; apply andb_prop in Ha as [He Ha].
  cbn [app failed_send_ends]; rewrite (plain_not_failed e He); auto.
Qed.

Lemma stop_ends_plain a b :
  forallb is_plain a = true -> stop_ends (a ++ b) = stop_ends b.
Proof.
  induction a as [|e a IH]; intros Ha; [reflexivity|].
  cbn [forallb] in Ha; apply andb_prop in Ha as [He Ha].
  destruct e as [| | | | | | | | | | | | | | | | [|]];
    cbn in He; try discriminate; cbn [app stop_ends]; auto.
Qed.

Lemma any_failed_plain a b :
  forallb is_plain a = true ->
  existsb is_failed_send (a ++ b) = existsb is_failed_send b.
Proof.
  induction a as [|e a IH]; intros Ha; [reflexivity|].
  cbn [forallb] in Ha; apply andb_prop in Ha as [He Ha].
  cbn [app existsb]; rewrite (plain_not_failed e He); auto.
Qed.

Lemma any_stop_plain a b :
  forallb is_plain a = true ->
  existsb is_stop_seen (a ++ b) = existsb is_stop_seen b.
Proof.
  induction a as [|e a IH]; intros Ha; [reflexivity|].
  cbn [forallb] in Ha; apply andb_prop in Ha as [He Ha].
  cbn [app existsb]; rewrite (plain_not_stop e He); auto.
Qed.

Lemma failed_send_last tr :
  failed_send_ends tr = true ->
  forall pre (v : list T) post, tr = pre ++ Asdk_send v (-1) :: post -> post = [].
Proof.
  intros Hends pre; revert tr Hends.
  induction pre as [|e pre IH]; intros tr Hends v post ->.
  - cbn in Hends; destruct post; [reflexivity | discriminate].
  - cbn [app failed_send_ends] in Hends.
    destruct (is_failed_send e).
    + destruct pre; discriminate.
    + eapply IH; [exact Hends | reflexivity].
Qed.

Lemma stop_seen_tail tr :
  stop_ends tr = true ->
  forall pre post,
    tr = pre ++ Read_stop true :: post ->
    (post = [Asdk_reset; Asdk_release]
     \/ post = [Read_stop true; Asdk_reset; Asdk_release])
    /\ ~ In Asdk_reset pre /\ ~ In Asdk_release pre.
Proof.
  intros Hends pre; revert tr Hends.
  induction pre as [|e pre IH]; intros tr Hends post ->.
  - cbn in Hends.
    split; [|split; intros []].
    destruct post as [|[| | | | | | | | | | | | | | | | [|]] post];
      try discriminate.
    + destruct post as [|[| | | | | | | | | | | | | | | | [|]] post];
        try discriminate.
      destruct post; [now left | discriminate].
    + destruct post as [|[| | | | | | | | | | | | | | | | [|]] post];
        try discriminate.
      destruct post as [|[| | | | | | | | | | | | | | | | [|]] post];
        try discriminate.
      destruct post; [now right | discriminate].
  - cbn [app stop_ends] in Hends.
    destruct e as [| | | | | | | | | | | | | | | | [|]]; try discriminate;
      try (destruct (IH _ Hends post eq_refl) as (Hp & Hr & Hl);
           split; [exact Hp|];
           split; intros [Hc|Hc]; try discriminate; auto).
    (* an earlier read already found [stop] set *)
    destruct pre as [|e' pre]; cbn in Hends.
    + destruct post as [|[| | | | | | | | | | | | | | | | [|]] post];
        try discriminate.
      destruct post as [|[| | | | | | | | | | | | | | | | [|]] post];
        try discriminate.
      destruct post; [|discriminate].
      split; [now left|]; split; intros [Hc|[]]; discriminate.
    + exfalso.
      destruct e' as [| | | | | | | | | | | | | | | | [|]]; try discriminate.
      * destruct pre as [|e2 pre]; cbn in Hends; [discriminate|].
        destruct e2 as [| | | | | | | | | | | | | | | | [|]]; try discriminate.
        destruct pre; cbn in Hends; discriminate.
      * destruct pre as [|e2 pre]; cbn in Hends; [discriminate|].
        destruct e2 as [| | | | | | | | | | | | | | | | [|]]; try discriminate.
        destruct pre as [|e3 pre]; cbn in Hends; [discriminate|].
        destruct e3 as [| | | | | | | | | | | | | | | | [|]]; try discriminate.
        destruct pre; cbn in Hends; discriminate.
Qed.

End TraceFacts.

Section EndsWell.

Context {T F : Type}.

Implicit Types (tr a : list (event T F)).

Lemma ends_well_plain (release : Z) (t : termination) a tr :
  forallb is_plain a = true ->
  ends_well release t tr -> ends_well release t (a ++ tr).
Proof.
  intros Ha (H1 & H2 & H3 & H4); unfold ends_well.
  rewrite failed_send_ends_plain, stop_ends_plain, any_failed_plain,
    any_stop_plain by exact Ha.
  auto.
Qed.

Lemma ends_well_nil (release : Z) (t : termination) :
  ends_well release t (@nil (event T F)).
Proof. repeat split; cbn; discriminate. Qed.

Lemma ends_well_only_plain (release : Z) (t : termination) a :
  forallb is_plain a = true -> ends_well release t a.
Proof.
  intros Ha; rewrite <- (app_nil_r a).
  apply ends_well_plain; [exact Ha | apply ends_well_nil].
Qed.

Lemma ends_well_sent (release : Z) (t : termination) (d : list T)
      (status : Z) tr :
  (status =? -1) = false ->
  ends_well release t tr -> ends_well release t (Asdk_send d status :: tr).
Proof.
  intros Hst (H1 & H2 & H3 & H4); unfold ends_well.
  cbn [failed_send_ends stop_ends existsb is_failed_send is_stop_seen].
  rewrite Hst; cbn [orb]; auto.
Qed.

Lemma ends_well_failed (release : Z) (d : list T) :
  ends_well release (Returned (-1)) [@Asdk_send T F d (-1)].
Proof. repeat split; cbn; discriminate. Qed.

Lemma ends_well_shutdown (release : Z) :
  ends_well release (Returned release)
            [@Read_stop T F true; Asdk_reset; Asdk_release].
Proof. repeat split; cbn; discriminate. Qed.

Lemma ends_well_late_shutdown (release : Z) :
  ends_well release (Returned release)
            [@Read_stop T F true; Read_stop true; Asdk_reset; Asdk_release].
Proof. repeat split; cbn; discriminate. Qed.

End EndsWell.

(** ** The control loop *)

Section LoopFacts.

Context {T : Type} `{Scalar T}.

Lemma warnings_plain (v : list T) :
  forall first, forallb is_plain (warnings_from first v) = true.
Proof.
  induction v as [|x v IH]; intros first; [reflexivity|].
  cbn [warnings_from]; rewrite forallb_app, IH, andb_true_r.
  destruct (saturated x); reflexivity.
Qed.

Lemma clip_to_limits_out (d d' : list T) (n : Z) (out : trace) :
  clip_to_limits d n = Done (d', out) -> forallb is_plain out = true.
Proof.
  destruct (Z.le_gt_cases n (Z.of_nat (List.length d))) as [Hn|Hn].
  - rewrite clip_to_limits_spec by exact Hn.
    intros [= _ <-]; apply warnings_plain.
  - rewrite clip_to_limits_overrun by lia; discriminate.
Qed.

Lemma sendCommand_trace (send_status : Z) (image : list sample) (nbAct : Z)
      (nobias nonorm fractional : Z) (max_stroke volume_factor : T)
      (mapping : list Z) (ret : Z) (out : trace) :
  sendCommand send_status image nbAct nobias nonorm fractional max_stroke
    volume_factor mapping = Done (ret, out) ->
  ret = send_status
  /\ exists (ws : trace) (d : list T),
       out = ws ++ [Asdk_send d send_status] /\ forallb is_plain ws = true.
Proof.
  unfold sendCommand; intros E.
  apply bind_done in E as (d0 & _ & E).
  apply bind_done in E as (d1 & _ & E).
  apply bind_done in E as (d2 & _ & E).
  apply bind_done in E as (d3 & _ & E).
  apply bind_done in E as ([d4 ws] & Hclip & E).
  injection E as <- <-.
  split; [reflexivity|].
  exists ws, d4; split; [reflexivity|].
  eapply clip_to_limits_out; exact Hclip.
Qed.

Lemma control_cycles_stopped (nbAct nobias nonorm fractional : Z)
      (max_stroke volume_factor : T) (mapping : list Z) (release : Z)
      (script : list wake) :
  control_cycles nbAct nobias nonorm fractional max_stroke volume_factor
    mapping release true script
  = Done (Returned release, [Read_stop true; Asdk_reset; Asdk_release]).
Proof. destruct script; reflexivity. Qed.

Lemma control_cycles_ends_well (nbAct nobias nonorm fractional : Z)
      (max_stroke volume_factor : T) (mapping : list Z) (release : Z)
      (script : list wake) :
  forall (stop : bool) (t : termination) (tr : trace),
    control_cycles nbAct nobias nonorm fractional max_stroke volume_factor
      mapping release stop script = Done (t, tr) ->
    ends_well release t tr.
Proof.
  induction script as [|w script IH]; intros stop t tr E.
  - cbn in E; destruct stop; injection E as <- <-.
    + apply ends_well_shutdown.
    + apply ends_well_only_plain; reflexivity.
  - cbn [control_cycles] in E.
    destruct (stop || sigint_before_test w).
    { injection E as <- <-; apply ends_well_shutdown. }
    destruct (sigint_in_wait w).
    { rewrite control_cycles_stopped in E; cbn [bind] in E.
      injection E as <- <-.
      apply (ends_well_plain release (Returned release)
               [Read_stop false; Sem_wait 0]); [reflexivity|].
      apply ends_well_late_shutdown. }
    apply bind_done in E as ([ret out] & Hsend & E).
    apply sendCommand_trace in Hsend as (-> & ws & d & -> & Hws).
    destruct (wake_send w =? -1) eqn:Est.
    + injection E as <- <-.
      apply Z.eqb_eq in Est; rewrite Est.
      apply (ends_well_plain release (Returned (-1))
               [Read_stop false; Sem_wait 0; Read_stop false]);
        [reflexivity|].
      apply ends_well_plain; [exact Hws | apply ends_well_failed].
    + apply bind_done in E as ([t' tr'] & Hrest & E).
      injection E as <- <-.
      apply (ends_well_plain release t'
               [Read_stop false; Sem_wait 0; Read_stop false]);
        [reflexivity|].
      rewrite <- app_assoc.
      apply ends_well_plain; [exact Hws|].
      apply ends_well_sent; [exact Est|].
      eapply IH; exact Hrest.
Qed.

Lemma get_actuator_mapping_out (file : option fits_image) (pix0 : pointer)
      (nbAct : Z) (buffer : list Z) (ret : Z) (mapping : list Z) (out : trace) :
  get_actuator_mapping file pix0 nbAct buffer = Done (ret, mapping, out) ->
  forallb is_plain out = true.
Proof.
  unfold get_actuator_mapping.
  destruct file as [img|].
  - destruct (negb (hdu_is_image img)); [intros [= _ _ <-]; reflexivity|].
    destruct (negb (naxis img =? 2)); [intros [= _ _ <-]; reflexivity|].
    intros E; apply bind_done in E as ([st status] & _ & E).
    cbn [bind free] in E; injection E as _ _ <-.
    destruct status; reflexivity.
  - destruct pix0; cbn [bind free]; intros E; try discriminate;
      injection E as _ _ <-; reflexivity.
Qed.

(** The events of [initializeSharedMemory], whatever the sizes asked for. *)
Lemma initializeSharedMemory_trace (ax1 ax2 : Z) :
  initializeSharedMemory ax1 ax2
  = Done ([Shm_create (to_uint32 ax1) (to_uint32 ax2); Sem_flush (-1);
           Shm_set_write 1]
            ++ map (fun i => Shm_store (Z.of_nat i) sample_zero) (seq 0 121)
            ++ [Sem_post (-1); Shm_set_write 0; Shm_incr_cnt0; Shm_incr_cnt1]).
Proof.
  unfold initializeSharedMemory.
  generalize (to_uint32 ax1) (to_uint32 ax2); intros size0 size1.
  reflexivity.
Qed.

Lemma initializeSharedMemory_out (ax1 ax2 : Z) (out : trace) :
  initializeSharedMemory ax1 ax2 = Done out -> forallb is_plain out = true.
Proof.
  rewrite initializeSharedMemory_trace; intros [= <-].
  apply forallb_forall; intros e Hin.
  repeat (destruct Hin as [<-|Hin]; [reflexivity|]).
  destruct Hin.
Qed.

Lemma controlLoop_ends_well (env : startup) (nobias nonorm fractional : Z)
      (script : list wake) (t : termination) (tr : trace) :
  controlLoop env nobias nonorm fractional script = Done (t, tr) ->
  ends_well (release_status env) t tr.
Proof.
  unfold controlLoop; intros E.
  apply bind_done in E as ([ret calib] & _ & E).
  destruct (ret =? -1).
  { injection E as <- <-; apply ends_well_nil. }
  destruct calib as [[max_stroke volume_factor]|]; [|discriminate].
  destruct (negb (dm_found env)).
  { injection E as <- <-; apply ends_well_only_plain; reflexivity. }
  destruct (get_status env =? -1).
  { injection E as <- <-; apply ends_well_only_plain; reflexivity. }
  apply bind_done in E as (nbAct & _ & E).
  apply bind_done in E as ([[r mapping] out_map] & Hmap & E).
  apply get_actuator_mapping_out in Hmap.
  apply bind_done in E as (out_shm & Hshm & E).
  apply initializeSharedMemory_out in Hshm.
  assert (Hout : forallb is_plain
                   ([Asdk_init; Asdk_get] ++ out_map ++ out_shm ++ [Shm_attach])
                 = true).
  { cbn [app forallb is_plain andb].
    rewrite !forallb_app, Hmap, Hshm; reflexivity. }
  destruct (negb (attached_naxis env =? 2)).
  { injection E as <- <-; apply ends_well_only_plain; exact Hout. }
  destruct (negb (attached_size0 env =? shm_dim)).
  { injection E as <- <-; apply ends_well_only_plain; exact Hout. }
  destruct (negb (attached_size1 env =? shm_dim)).
  { injection E as <- <-; apply ends_well_only_plain; exact Hout. }
  apply bind_done in E as ([ret1 out_send] & Hsend & E).
  apply sendCommand_trace in Hsend as (-> & ws & d & -> & Hws).
  destruct (first_send env =? -1) eqn:Est.
  - injection E as <- <-.
    apply Z.eqb_eq in Est; rewrite Est.
    apply ends_well_plain; [exact Hout|].
    apply (ends_well_plain (release_status env) (Returned (-1)) [Sem_wait 0]);
      [reflexivity|].
    apply ends_well_plain; [exact Hws | apply ends_well_failed].
  - apply bind_done in E as ([t' tr'] & Hloop & E).
    injection E as <- <-.
    unfold trace in *; rewrite <- !app_assoc; cbn [app].
    rewrite <- (app_assoc ws); cbn [app].
    apply (ends_well_plain (release_status env) t' [Asdk_init; Asdk_get]
             (out_map ++ out_shm ++ Shm_attach :: Sem_wait 0
                :: ws ++ Asdk_send d (first_send env) :: tr'));
      [reflexivity|].
    apply ends_well_plain; [exact Hmap|].
    apply ends_well_plain; [exact Hshm|].
    apply (ends_well_plain (release_status env) t' [Shm_attach; Sem_wait 0]
             (ws ++ Asdk_send d (first_send env) :: tr'));
      [reflexivity|].
    apply ends_well_plain; [exact Hws|].
    apply ends_well_sent; [exact Est|].
    eapply control_cycles_ends_well; exact Hloop.
Qed.

End LoopFacts.

(** C6: in every run of [controlLoop], once a read of [stop] has found it
    set (after a wake from the wait, or at the loop test), nothing is sent
    any more: what follows is at most the loop test reading the flag again,
    then [asdkReset] and [asdkRelease], once each and in this order, neither
    having been called before; and the run returns what [asdkRelease]
    answered. *)
Theorem controlLoop_interrupt_shutdown {T : Type} `{Scalar T}
        (env : startup) (nobias nonorm fractional : Z) (script : list wake)
        (t : termination) (tr pre post : trace) :
  controlLoop env nobias nonorm fractional script = Done (t, tr) ->
  tr = pre ++ Read_stop true :: post ->
  (post = [Asdk_reset; Asdk_release]
   \/ post = [Read_stop true; Asdk_reset; Asdk_release])
  /\ (forall v status, ~ In (Asdk_send v status) post)
  /\ ~ In Asdk_reset pre
  /\ ~ In Asdk_release pre
  /\ t = Returned (release_status env).
Proof.
  intros Hrun Htr.
  apply controlLoop_ends_well in Hrun as (_ & Hstop & _ & Hret).
  destruct (stop_seen_tail tr Hstop pre post Htr) as (Hpost & Hreset & Hrel).
  repeat split; try assumption.
  - intros v status Hin.
    destruct Hpost as [-> | ->]; cbn in Hin;
      repeat (destruct Hin as [Hin|Hin]; [discriminate|]); exact Hin.
  - apply Hret; apply existsb_exists.
    exists (Read_stop true); split; [|reflexivity].
    rewrite Htr; apply in_or_app; right; now left.
Qed.

Lemma controlLoop_interrupt_shutdown_witness :
  let run := controlLoop Example.env 0 0 0 Example.interrupted in
  let pre := Example.all_but_last 4 (Example.events_of run) in
  let post := [Read_stop true; Asdk_reset; Asdk_release] in
  run = Done (Returned 0, pre ++ Read_stop true :: post)
  /\ (forall v status, ~ In (Asdk_send v status) post).
Proof.
  intros run pre post.
  assert (Hrun : run = Done (Returned 0, pre ++ Read_stop true :: post))
    by (vm_compute; reflexivity).
  split; [exact Hrun|].
  exact (proj1 (proj2 (controlLoop_interrupt_shutdown
                         Example.env 0 0 0 Example.interrupted (Returned 0)
                         (pre ++ Read_stop true :: post) pre post
                         Hrun eq_refl))).
Defined.

(** C7: in every run of [controlLoop], a send that the device answers with
    -1 is the last thing the run does, and the run returns -1: the command
    is not sent again. *)
Theorem controlLoop_failed_send_is_fatal {T : Type} `{Scalar T}
        (env : startup) (nobias nonorm fractional : Z) (script : list wake)
        (t : termination) (tr pre post : trace) (v : list T) :
  controlLoop env nobias nonorm fractional script = Done (t, tr) ->
  tr = pre ++ Asdk_send v (-1) :: post ->
  post = [] /\ t = Returned (-1).
Proof.
  intros Hrun Htr.
  apply controlLoop_ends_well in Hrun as (Hfail & _ & Hret & _).
  split.
  - exact (failed_send_last tr Hfail pre v post Htr).
  - apply Hret; apply existsb_exists.
    exists (Asdk_send v (-1)); split; [|reflexivity].
    rewrite Htr; apply in_or_app; right; now left.
Qed.

Lemma controlLoop_failed_send_is_fatal_witness :
  let run := controlLoop Example.env 0 0 0 Example.refused in
  let pre := Example.all_but_last 1 (Example.events_of run) in
  let v := [Binary64.of_int 1; Binary64.of_int (-1)] in
  run = Done (Returned (-1), pre ++ [Asdk_send v (-1)])
  /\ @nil (event Binary64.double spec_float) = [].
Proof.
  intros run pre v.
  assert (Hrun : run = Done (Returned (-1), pre ++ [Asdk_send v (-1)]))
    by (vm_compute; reflexivity).
  split; [exact Hrun|].
  exact (proj1 (controlLoop_failed_send_is_fatal
                  Example.env 0 0 0 Example.refused (Returned (-1))
                  (pre ++ [Asdk_send v (-1)]) pre [] v Hrun eq_refl)).
Defined.

(** ** The shared-memory initialisation *)

Section SharedMemory.

Context {T : Type} `{Scalar T}.

Lemma shm_run_app (fresh : Z -> sample) (a b : trace) :
  forall img : image,
    shm_run fresh img (a ++ b)
    = (img' <- shm_run fresh img a ;; shm_run fresh img' b).
Proof.
  induction a as [|e a IH]; intros img; [reflexivity|].
  cbn [app shm_run].
  destruct (shm_effect fresh img e) as [img1|]; cbn [bind]; [apply IH | reflexivity].
Qed.

Lemma shm_run_stores (fresh : Z -> sample) (mid : list sample) :
  forall (pre post : list sample) (img : image),
    array_F img = pre ++ mid ++ post ->
    shm_run fresh img (zero_stores (List.length pre) (List.length mid))
    = Done (with_array img
              (pre ++ repeat sample_zero (List.length mid) ++ post)).
Proof.
  induction mid as [|x mid IH]; intros pre post img Harr.
  - cbn in Harr |- *; rewrite <- Harr; destruct img; reflexivity.
  - cbn [List.length zero_stores seq map shm_run shm_effect].
    rewrite Harr; cbn [app]; rewrite arr_set_middle; cbn [bind].
    pose proof (IH (pre ++ [sample_zero]) post
                  (with_array img (pre ++ sample_zero :: mid ++ post))) as E.
    rewrite length_app, Nat.add_1_r, <- !app_assoc in E.
    fold (zero_stores (Datatypes.S (List.length pre)) (List.length mid)).
    rewrite E by reflexivity.
    reflexivity.
Qed.

Lemma shm_store_outside (fresh : Z -> sample) (img : image) (v : sample)
      (rest : trace) :
  shm_run fresh img (Shm_store (Z.of_nat (List.length (array_F img))) v :: rest)
  = Undefined.
Proof.
  cbn [shm_run shm_effect]; unfold arr_set.
  destruct (Z.ltb_spec (Z.of_nat (List.length (array_F img))) 0); [reflexivity|].
  rewrite Nat2Z.id, list_set_beyond by lia; reflexivity.
Qed.

End SharedMemory.

Lemma zero_stores_split {T : Type} `{Scalar T} (from n m : nat) :
  zero_stores from (n + m) = zero_stores from n ++ zero_stores (from + n) m.
Proof. unfold zero_stores; now rewrite seq_app, map_app. Qed.

(** C10: whatever [ax1] and [ax2] are, [initializeSharedMemory] creates the
    image with them as sizes, flushes all semaphores, stores 0 to
    [array.F[0]] .. [array.F[120]], one store each and nothing else, and
    then posts all semaphores.  On the image this leaves 121 zeros at the
    start of the array when the array has that many elements; when it has
    fewer, the stores run past its end. *)
Theorem initializeSharedMemory_zeroes_121 {T : Type} `{Scalar T} (ax1 ax2 : Z) :
  let size0 := to_uint32 ax1 in
  let size1 := to_uint32 ax2 in
  let tr := [Shm_create size0 size1; Sem_flush (-1); Shm_set_write 1]
              ++ zero_stores 0 (11 * 11)
              ++ [Sem_post (-1); Shm_set_write 0; Shm_incr_cnt0; Shm_incr_cnt1] in
  initializeSharedMemory ax1 ax2 = Done tr
  /\ forall (fresh : Z -> sample) (img0 : image),
      shm_run fresh img0 tr
      = if 121 <=? size0 * size1
        then Done {| md_size0 := size0; md_size1 := size1; md_write := 0;
                     md_cnt0 := 1; md_cnt1 := 1;
                     array_F :=
                       repeat sample_zero 121
                         ++ map (fun i => fresh (Z.of_nat i))
                              (seq 121 (Z.to_nat (size0 * size1) - 121)) |}
        else Undefined.
Proof.
  intros size0 size1 tr; split; [apply initializeSharedMemory_trace|].
  intros fresh img0; subst tr.
  generalize size0 size1; clear size0 size1; intros size0 size1.
  cbn [app shm_run shm_effect bind md_size0 md_size1 md_write md_cnt0 md_cnt1
       array_F].
  set (n := Z.to_nat (size0 * size1)).
  set (f := fun i : nat => fresh (Z.of_nat i)).
  change (11 * 11)%nat with 121%nat.
  set (img1 := {| md_size0 := size0; md_size1 := size1; md_write := 1;
                  md_cnt0 := 0; md_cnt1 := 0; array_F := map f (seq 0 n) |}).
  destruct (Z.leb_spec 121 (size0 * size1)) as [Hbig|Hsmall].
  - rewrite shm_run_app.
    assert (Hn : n = (121 + (n - 121))%nat) by lia.
    pose proof (shm_run_stores fresh (map f (seq 0 121)) []
                  (map f (seq 121 (n - 121))) img1) as E.
    rewrite length_map, length_seq in E; cbn [List.length app] in E.
    rewrite E.
    + reflexivity.
    + cbn [img1 array_F]; rewrite Hn at 1.
      now rewrite seq_app, map_app.
  - replace 121%nat with (n + Datatypes.S (121 - n - 1))%nat by lia.
    rewrite zero_stores_split, <- app_assoc, shm_run_app.
    pose proof (shm_run_stores fresh (map f (seq 0 n)) [] [] img1) as E.
    rewrite length_map, length_seq in E; cbn [List.length app] in E.
    rewrite E by (cbn [img1 array_F]; now rewrite app_nil_r).
    cbn [bind Nat.add zero_stores seq map app].
    set (img2 := with_array img1 (repeat sample_zero n ++ [])).
    replace (Z.of_nat n) with (Z.of_nat (List.length (array_F img2)))
      by (cbn [img2 with_array array_F];
          rewrite app_nil_r, repeat_length; reflexivity).
    apply shm_store_outside.
Qed.

(** ** The loaders on files that should be refused *)

(** Once the file is open the status is 0, whatever the file holds; a
    third line is stored past the two-element block. *)
Lemma parse_calibration_file_opened {T : Type} `{Scalar T}
      (lines : list cal_line) (heap : T * T) (ret : Z)
      (calib : option (T * T)) :
  parse_calibration_file true (Some lines) heap = Done (ret, calib) ->
  ret = 0.
Proof.
  unfold parse_calibration_file; cbn [negb].
  intros E.
  apply bind_done in E as (c & _ & E).
  apply bind_done in E as (m & _ & E).
  apply bind_done in E as (f & _ & E).
  now injection E as <- _.
Qed.

Lemma parse_calibration_file_third_line {T : Type} `{Scalar T}
      (l1 l2 l3 : cal_line) (rest : list cal_line) (heap : T * T) :
  parse_calibration_file true (Some (l1 :: l2 :: l3 :: rest)) heap = Undefined.
Proof. reflexivity. Qed.

(** A mapping file that cannot be opened never gives a non-zero status. *)
Lemma get_actuator_mapping_unopened {T : Type} `{Scalar T}
      (pix0 : pointer) (nbAct : Z) (buffer mapping : list Z) (ret : Z)
      (out : trace) :
  get_actuator_mapping None pix0 nbAct buffer = Done (ret, mapping, out) ->
  ret = 0 /\ mapping = buffer.
Proof.
  destruct pix0; cbn; intros E; try discriminate;
    injection E as <- <- _; split; reflexivity.
Qed.

(** C3: [parse_calibration_file] returns 0 for any file it can open that
    has at most two lines.  With a single numeric line [volume_factor] is
    what the fresh block happened to hold; with no line both constants are;
    a line that is not numeric counts as 0.  [controlLoop] then goes on: the
    device is initialised and commands are sent. *)
Theorem parse_calibration_file_accepts_one_line :
  (forall (T : Type) (ops : Scalar T) (v h0 h1 : T),
      parse_calibration_file true (Some [Numeric v]) (h0, h1)
      = Done (0, Some (v, h1))
      /\ parse_calibration_file true (Some []) (h0, h1)
         = Done (0, Some (h0, h1))
      /\ parse_calibration_file true (Some [Not_numeric; Numeric v]) (h0, h1)
         = Done (0, Some (of_int 0, v)))
  /\ (let run := controlLoop
                   (Example.startup_with [Numeric (Binary64.of_int 3)]
                      (Some Example.mask) 0)
                   0 0 0 [Example.wake_with false false 0] in
      hd_error (Example.events_of run) = Some Asdk_init
      /\ run
         = Done (Blocked,
                 Example.all_but_last 10 (Example.events_of run)
                   ++ [Sem_wait 0;
                       Asdk_send [Binary64.zero; Binary64.zero] 0;
                       Read_stop false; Sem_wait 0; Read_stop false;
                       Print_saturated 1; Print_saturated 2;
                       Asdk_send [Binary64.one; Binary64.minus_one] 0;
                       Read_stop false; Sem_wait 0])).
Proof.
  split.
  - intros T ops v h0 h1; repeat split; reflexivity.
  - split; vm_compute; reflexivity.
Qed.

(** C5: when the mapping file cannot be opened, [get_actuator_mapping]
    reports the CFITSIO error, frees [pix], which was never assigned, and
    returns 0 with the buffer untouched; an image that is not 2-D makes it
    return 1.  After the failed open [controlLoop] goes on and sends
    commands built from the unwritten buffer. *)
Theorem get_actuator_mapping_unopened_returns_zero :
  (forall (T : Type) (ops : Scalar T) (nbAct : Z) (buffer : list Z),
      get_actuator_mapping None Null nbAct buffer
      = Done (0, buffer, [Fits_report_error])
      /\ get_actuator_mapping None Wild nbAct buffer = Undefined
      /\ forall (pix0 : pointer) (width height : Z) (px : list Z),
          get_actuator_mapping
            (Some {| hdu_is_image := true; naxis := 3; naxes0 := width;
                     naxes1 := height; pixels := px |})
            pix0 nbAct buffer
          = Done (1, buffer, []))
  /\ (let run := controlLoop
                   (Example.startup_with Example.calibration None 0)
                   0 0 0 [Example.wake_with false false 0] in
      firstn 3 (Example.events_of run)
      = [Asdk_init; Asdk_get; Fits_report_error]
      /\ run
         = Done (Blocked,
                 Example.all_but_last 8 (Example.events_of run)
                   ++ [Sem_wait 0;
                       Asdk_send [Binary64.zero; Binary64.zero] 0;
                       Read_stop false; Sem_wait 0; Read_stop false;
                       Asdk_send [Binary64.zero; Binary64.zero] 0;
                       Read_stop false; Sem_wait 0])).
Proof.
  split.
  - intros T ops nbAct buffer; repeat split; reflexivity.
  - split; vm_compute; reflexivity.
Qed.

(** ** Instances of the theorems *)

Lemma sendCommand_is_pipeline_witness :
  sendCommand (H := double_scalar) 0 Example.frame 2 0 0 0
    (Binary64.of_int 3) (Binary64.of_int 1) [60; 61]
  = Done (0, [Print_saturated 1; Print_saturated 2;
              Asdk_send [Binary64.one; Binary64.minus_one] 0]).
Proof.
  destruct (sendCommand_is_pipeline (H := double_scalar) 0 Example.frame
              2 0 0 0 (Binary64.of_int 3) (Binary64.of_int 1) [60; 61])
    as [E _].
  - simpl; lia.
  - repeat constructor; vm_compute; congruence.
  - rewrite E; vm_compute; reflexivity.
Defined.

Lemma get_actuator_mapping_scan_witness :
  get_actuator_mapping (H := double_scalar)
    (Some {| hdu_is_image := true; naxis := 2; naxes0 := 3; naxes1 := 2;
             pixels := [1; 0; 1; 0; 1; 1] |})
    Wild 4 [7; 7; 7; 7; 7]
  = Done (0, [4; 5; 0; 2; 7], [])
  /\ NoDup [4; 5; 0; 2].
Proof.
  pose proof (get_actuator_mapping_scan (H := double_scalar)
                {| hdu_is_image := true; naxis := 2; naxes0 := 3; naxes1 := 2;
                   pixels := [1; 0; 1; 0; 1; 1] |}
                Wild 4 [7; 7; 7; 7; 7]) as W.
  destruct W as (E & _ & Hnodup & _);
    try reflexivity; try (simpl; lia); try (vm_compute; lia).
  split; [exact E | exact Hnodup].
Defined.

(** * Further properties of the program *)

(** ** The stage loops and the ends of the array *)

Lemma for_upto_map_overrun {A : Type} (f : A -> A) (v : list A) (n : Z) :
  Z.of_nat (List.length v) < n ->
  for_upto n (fun idx a => x <- arr_get a idx ;; arr_set a idx (f x)) v
  = Undefined.
Proof.
  intros Hn; unfold for_upto.
  replace (Z.to_nat n)
    with (List.length v + Datatypes.S (Z.to_nat n - List.length v - 1))%nat
    by lia.
  rewrite for_loop_app.
  pose proof (for_loop_map f v [] []) as E.
  cbn [app List.length Z.of_nat] in E.
  rewrite app_nil_r in E; rewrite E; cbn [bind for_loop].
  replace (0 + Z.of_nat (List.length v))
    with (Z.of_nat (List.length (map f v ++ [])))
    by (rewrite app_nil_r, length_map; lia).
  rewrite arr_get_beyond; reflexivity.
Qed.

Lemma for_upto_fold_overrun {A B : Type} (g : B -> A -> B) (v : list A)
      (n : Z) (acc : B) :
  Z.of_nat (List.length v) < n ->
  for_upto n (fun idx acc => x <- arr_get v idx ;; Done (g acc x)) acc
  = Undefined.
Proof.
  intros Hn; unfold for_upto.
  replace (Z.to_nat n)
    with (List.length v + Datatypes.S (Z.to_nat n - List.length v - 1))%nat
    by lia.
  rewrite for_loop_app.
  pose proof (for_loop_fold g v [] [] acc) as E.
  cbn [app List.length Z.of_nat] in E.
  rewrite app_nil_r in E; rewrite E; cbn [bind for_loop].
  replace (0 + Z.of_nat (List.length v)) with (Z.of_nat (List.length v)) by lia.
  rewrite arr_get_beyond; reflexivity.
Qed.

Lemma rewritten_prefix_length {A : Type} (f : list A -> list A) (v : list A)
      (k : nat) :
  (forall u, List.length (f u) = List.length u) ->
  List.length (f (firstn k v) ++ skipn k v) = List.length v.
Proof.
  intros Hf.
  rewrite length_app, Hf, <- length_app, firstn_skipn; reflexivity.
Qed.

Lemma rewritten_prefix_tail {A : Type} (f : list A -> list A) (v : list A)
      (k : nat) :
  (forall u, List.length (f u) = List.length u) ->
  (k <= List.length v)%nat ->
  firstn k (f (firstn k v) ++ skipn k v) = f (firstn k v)
  /\ skipn k (f (firstn k v) ++ skipn k v) = skipn k v.
Proof.
  intros Hf Hk.
  assert (Hlen : List.length (f (firstn k v)) = k)
    by (rewrite Hf; now apply firstn_length_le).
  split.
  - rewrite firstn_app, Hlen, Nat.sub_diag; cbn [firstn]; rewrite app_nil_r.
    rewrite <- Hlen at 1; apply firstn_all.
  - rewrite skipn_app, Hlen, Nat.sub_diag; cbn [skipn].
    rewrite <- Hlen at 1; now rewrite skipn_all.
Qed.

Section StageBounds.

Context {T : Type} `{Scalar T}.

Lemma volume_stage_length (c : T) (u : list T) :
  List.length (volume_stage c u) = List.length u.
Proof. apply length_map. Qed.

Lemma unit_stage_length (c : T) (u : list T) :
  List.length (unit_stage c u) = List.length u.
Proof. apply length_map. Qed.

Lemma bias_stage_length (u : list T) :
  List.length (bias_stage u) = List.length u.
Proof. apply length_map. Qed.

Lemma bias_inputs_overrun (v : list T) (n : Z) :
  Z.of_nat (List.length v) < n -> bias_inputs v n = Undefined.
Proof.
  intros Hn; unfold bias_inputs.
  now rewrite for_upto_fold_overrun.
Qed.

End StageBounds.

Lemma respects_count_of {T : Type} (stage : list T -> Z -> outcome (list T))
      (f : list T -> list T) :
  (forall u, List.length (f u) = List.length u) ->
  (forall v n, n <= Z.of_nat (List.length v) ->
               stage v n = Done (f (firstn (Z.to_nat n) v) ++ skipn (Z.to_nat n) v)) ->
  (forall v n, Z.of_nat (List.length v) < n -> stage v n = Undefined) ->
  respects_count stage.
Proof.
  intros Hf Hin Hout v n; repeat split.
  - intros Hn; eexists; split; [apply Hin; exact Hn|]; split.
    + apply rewritten_prefix_length; exact Hf.
    + apply rewritten_prefix_tail; [exact Hf | lia].
  - intros Hn; rewrite Hin by lia.
    replace (Z.to_nat n) with 0%nat by lia; cbn [firstn skipn].
    specialize (Hf []); destruct (f []); [reflexivity | discriminate].
  - apply Hout.
Qed.

(** X2: each of the four stage loops respects the count [nbAct] it is
    given: within the array it keeps the length and leaves the elements from
    [nbAct] on as they were, with [nbAct <= 0] it changes nothing, and with
    [nbAct] beyond the array it runs past the end. *)
Theorem stages_respect_count {T : Type} `{Scalar T} (c : T) :
  respects_count (fun v n => normalize_inputs v n c)
  /\ respects_count (fun v n => microns_to_fractional_stroke v n c)
  /\ respects_count bias_inputs
  /\ respects_count (fun v n => r <- clip_to_limits v n ;; Done (fst r)).
Proof.
  split; [|split; [|split]].
  - apply (respects_count_of _ (volume_stage c)).
    + apply volume_stage_length.
    + intros v n Hn; exact (normalize_inputs_spec v n c Hn).
    + intros v n Hn; cbv beta; now apply for_upto_map_overrun.
  - apply (respects_count_of _ (unit_stage c)).
    + apply unit_stage_length.
    + intros v n Hn; exact (microns_to_fractional_stroke_spec v n c Hn).
    + intros v n Hn; cbv beta; now apply for_upto_map_overrun.
  - apply (respects_count_of _ bias_stage).
    + apply bias_stage_length.
    + intros v n Hn; exact (bias_inputs_spec v n Hn).
    + intros v n Hn; exact (bias_inputs_overrun v n Hn).
  - apply (respects_count_of _ clip_stage).
    + apply clip_stage_length.
    + intros v n Hn; now rewrite clip_to_limits_spec.
    + intros v n Hn; now rewrite clip_to_limits_overrun.
Qed.

Lemma stages_respect_count_witness :
  let v := [Binary64.of_int 4; Binary64.of_int 6; Binary64.of_int 8] in
  (exists v', normalize_inputs v 2 (Binary64.of_int 2) = Done v'
              /\ List.length v' = 3%nat
              /\ skipn 2 v' = [Binary64.of_int 8])
  /\ bias_inputs v 0 = Done v
  /\ bias_inputs v 4 = Undefined.
Proof.
  intros v.
  destruct (stages_respect_count (Binary64.of_int 2)) as (Hnorm & _ & Hbias & _).
  split; [|split].
  - apply (proj1 (Hnorm v 2)); simpl; lia.
  - apply (proj1 (proj2 (Hbias v 0))); lia.
  - apply (proj2 (proj2 (Hbias v 4))); simpl; lia.
Defined.

(** ** Clipping what is already within the limits *)

Lemma clip_to_limits_without_nan_witness :
  let v := [Binary64.of_int 3; S754_infinity true; Binary64.zero; S754_nan] in
  exists v' out,
    clip_to_limits v 3 = Done (v', out)
    /\ List.length v' = List.length v
    /\ Forall (fun x => Binary64.in_range Binary64.minus_one Binary64.one x = true)
              (firstn 3 v')
    /\ (forall idx, 0 <= idx < 3 ->
          warnings_for (idx + 1) out
          = if Binary64.exceeds_one (nth (Z.to_nat idx) v Binary64.zero)
            then 1%nat else 0%nat)
    /\ (forall e, In e out ->
          exists idx, 0 <= idx < 3 /\ e = Print_saturated (idx + 1)).
Proof.
  intros v.
  apply (clip_to_limits_without_nan v 3).
  - simpl; lia.
  - repeat constructor.
Defined.

Section Unsaturated.

Context {T : Type} `{Scalar T}.

Lemma clamp_unsaturated (x : T) : saturated x = false -> clamp x = x.
Proof.
  unfold saturated, clamp; intros Hx.
  apply orb_false_elim in Hx as [-> ->]; reflexivity.
Qed.

Lemma clip_stage_unsaturated (v : list T) :
  Forall (fun x => saturated x = false) v ->
  clip_stage v = v /\ forall first, warnings_from first v = [].
Proof.
  induction 1 as [|x v Hx _ [IHc IHw]]; [split; reflexivity|].
  split.
  - cbn [clip_stage map]; fold (clip_stage v).
    now rewrite clamp_unsaturated, IHc.
  - intros first; cbn [warnings_from]; now rewrite Hx, IHw.
Qed.

End Unsaturated.

Lemma in_range_not_saturated (x : Binary64.double) :
  Binary64.in_range Binary64.minus_one Binary64.one x = true ->
  saturated x = false.
Proof.
  unfold Binary64.in_range, saturated; cbn [sgt slt double_scalar].
  unfold Binary64.gt, Binary64.lt, SFleb, SFltb.
  change (of_int 1) with Binary64.one.
  change (of_int (-1)) with Binary64.minus_one.
  intros Hx; apply andb_prop in Hx as [Hlo Hhi].
  destruct (SFcompare Binary64.minus_one x) as [clo|] eqn:Elo; [|discriminate].
  destruct (SFcompare x Binary64.one) as [chi|] eqn:Ehi; [|discriminate].
  rewrite (SFcompare_antisym _ _ _ Elo), (SFcompare_antisym _ _ _ Ehi).
  destruct clo, chi; try discriminate; reflexivity.
Qed.

(** X3: on binary64, a vector whose first [nbAct] values are all within
    [-1, 1] comes back from [clip_to_limits] exactly as it was, and nothing
    is printed. *)
Theorem clip_to_limits_leaves_in_range (v : list Binary64.double) (nbAct : Z) :
  nbAct <= Z.of_nat (List.length v) ->
  Forall (fun x => Binary64.in_range Binary64.minus_one Binary64.one x = true)
         (firstn (Z.to_nat nbAct) v) ->
  clip_to_limits v nbAct = Done (v, []).
Proof.
  intros Hn Hrange.
  rewrite clip_to_limits_spec by exact Hn.
  destruct (clip_stage_unsaturated (firstn (Z.to_nat nbAct) v)) as [Hc Hw].
  { eapply Forall_impl; [|exact Hrange].
    intros x Hx; now apply in_range_not_saturated. }
  now rewrite Hc, Hw, firstn_skipn.
Qed.

Lemma clip_to_limits_leaves_in_range_witness :
  let v := [Binary64.one; Binary64.minus_one; S754_zero true; S754_nan] in
  clip_to_limits v 3 = Done (v, []).
Proof.
  intros v.
  apply (clip_to_limits_leaves_in_range v 3).
  - simpl; lia.
  - repeat constructor.
Defined.

(** ** When the dispatcher is defined, and what it sends *)

Section DispatcherBounds.

Context {T : Type} `{Scalar T}.

Lemma in_image_dec (image : list sample) (m : Z) :
  {in_image image m} + {~ in_image image m}.
Proof.
  unfold in_image.
  destruct (Z_le_dec 0 m), (Z_lt_dec m (Z.of_nat (List.length image)));
    (left; lia) || (right; lia).
Qed.

Lemma arr_get_outside {A : Type} (a : list A) (i : Z) :
  ~ (0 <= i < Z.of_nat (List.length a)) -> arr_get a i = Undefined.
Proof.
  intros Hi; unfold arr_get.
  destruct (Z.ltb_spec i 0); [reflexivity|].
  destruct (nth_error a (Z.to_nat i)) eqn:E; [|reflexivity].
  assert (nth_error a (Z.to_nat i) <> None) as Hs by congruence.
  apply nth_error_Some in Hs; lia.
Qed.

(** The pulling loop stops at the first mapping entry outside the image. *)
Lemma pull_loop_outside (image : list sample) (mm : list Z) :
  forall (mp mq : list Z) (pre mid post : list T),
    List.length pre = List.length mp ->
    List.length mid = List.length mm ->
    ~ Forall (in_image image) mm ->
    for_loop (List.length mm) (Z.of_nat (List.length mp))
      (fun idx a =>
         m <- arr_get (mp ++ mm ++ mq) idx ;;
         f <- arr_get image m ;;
         arr_set a idx (of_sample f))
      (pre ++ mid ++ post)
    = Undefined.
Proof.
  induction mm as [|m mm IH]; intros mp mq pre mid post Hpre Hmid Hbad.
  - exfalso; apply Hbad; constructor.
  - destruct mid as [|y mid]; [discriminate|].
    cbn [List.length for_loop app].
    rewrite arr_get_middle; cbn [bind].
    destruct (in_image_dec image m) as [Hm|Hm].
    + rewrite (arr_get_nth image m sample_zero) by exact Hm; cbn [bind].
      rewrite <- Hpre, arr_set_middle.
      set (y' := of_sample (nth (Z.to_nat m) image sample_zero)).
      pose proof (IH (mp ++ [m]) mq (pre ++ [y']) mid post) as E.
      rewrite !length_app, Nat2Z.inj_add, <- !app_assoc in E.
      cbn [app List.length Z.of_nat Pos.of_succ_nat] in E.
      rewrite <- Hpre in E.
      apply E; [reflexivity | simpl in Hmid; lia |].
      intros Hrest; apply Hbad; now constructor.
    + rewrite (arr_get_outside image m Hm); reflexivity.
Qed.

Lemma pull_input_undefined (image : list sample) (nbAct : Z) (mapping : list Z) :
  Z.of_nat (List.length mapping) < nbAct
  \/ ~ Forall (in_image image) (firstn (Z.to_nat nbAct) mapping) ->
  for_upto nbAct
    (fun idx a =>
       m <- arr_get mapping idx ;;
       f <- arr_get image m ;;
       arr_set a idx (of_sample f))
    (repeat (of_int 0) (Z.to_nat nbAct))
  = Undefined.
Proof.
  intros [Hlong|Hbad]; unfold for_upto.
  - replace (Z.to_nat nbAct)
      with (List.length mapping
            + Datatypes.S (Z.to_nat nbAct - List.length mapping - 1))%nat
      at 1 by lia.
    rewrite for_loop_app.
    destruct (for_loop (List.length mapping) 0 _ _) as [a|]; [|reflexivity].
    cbn [bind for_loop].
    replace (0 + Z.of_nat (List.length mapping))
      with (Z.of_nat (List.length mapping)) by lia.
    rewrite arr_get_beyond; reflexivity.
  - destruct (Z.le_gt_cases nbAct (Z.of_nat (List.length mapping)))
      as [Hn|Hn].
    + pose proof (pull_loop_outside image (firstn (Z.to_nat nbAct) mapping) []
                    (skipn (Z.to_nat nbAct) mapping) []
                    (repeat (of_int 0) (Z.to_nat nbAct)) []) as E.
      cbn [app List.length Z.of_nat] in E.
      rewrite firstn_skipn, !app_nil_r, firstn_length_le in E by lia.
      apply E; [reflexivity | apply repeat_length | exact Hbad].
    + replace (Z.to_nat nbAct)
        with (List.length mapping
              + Datatypes.S (Z.to_nat nbAct - List.length mapping - 1))%nat
        at 1 by lia.
      rewrite for_loop_app.
      destruct (for_loop (List.length mapping) 0 _ _) as [a|]; [|reflexivity].
      cbn [bind for_loop].
      replace (0 + Z.of_nat (List.length mapping))
        with (Z.of_nat (List.length mapping)) by lia.
      rewrite arr_get_beyond; reflexivity.
Qed.

End DispatcherBounds.

Section DispatcherShape.

Context {T : Type} `{Scalar T}.

Lemma sendCommand_when_defined (send_status : Z) (image : list sample)
      (nbAct : Z) (nobias nonorm fractional : Z) (max_stroke volume_factor : T)
      (mapping : list Z) :
  nbAct <= Z.of_nat (List.length mapping) ->
  Forall (in_image image) (firstn (Z.to_nat nbAct) mapping) ->
  let staged := staged_input image nbAct nobias nonorm fractional max_stroke
                  volume_factor mapping in
  sendCommand send_status image nbAct nobias nonorm fractional max_stroke
    volume_factor mapping
  = Done (send_status,
          warnings_from 1 staged ++ [Asdk_send (clip_stage staged) send_status]).
Proof.
  intros Hn Hrange staged.
  assert (Hlen : List.length (mapped_input image nbAct mapping)
                 = Z.to_nat nbAct).
  { unfold mapped_input.
    rewrite length_map, firstn_length_le by lia; reflexivity. }
  unfold sendCommand.
  rewrite pull_input by assumption; cbn [bind].
  unfold staged, staged_input, unclipped, optional.
  destruct (negb (nonorm =? 1)); cbn [bind];
    [rewrite normalize_inputs_whole by exact Hlen; cbn [bind]|];
    (destruct (negb (fractional =? 1)); cbn [bind];
     [rewrite microns_to_fractional_stroke_whole
        by (unfold volume_stage; rewrite ?length_map; exact Hlen);
      cbn [bind]|]);
    (destruct (negb (nobias =? 1)); cbn [bind];
     [rewrite bias_inputs_whole
        by (unfold unit_stage, volume_stage; rewrite ?length_map; exact Hlen);
      cbn [bind]|]);
    rewrite clip_to_limits_whole
      by (unfold bias_stage, unit_stage, volume_stage; rewrite ?length_map;
          exact Hlen);
    reflexivity.
Qed.

Lemma sendCommand_needs (send_status : Z) (image : list sample)
      (nbAct : Z) (nobias nonorm fractional : Z) (max_stroke volume_factor : T)
      (mapping : list Z) (r : Z * trace) :
  sendCommand send_status image nbAct nobias nonorm fractional max_stroke
    volume_factor mapping = Done r ->
  nbAct <= Z.of_nat (List.length mapping)
  /\ Forall (in_image image) (firstn (Z.to_nat nbAct) mapping).
Proof.
  intros E.
  destruct (Z.le_gt_cases nbAct (Z.of_nat (List.length mapping))) as [Hn|Hn].
  - split; [exact Hn|].
    destruct (Forall_dec (in_image image) (in_image_dec image)
                (firstn (Z.to_nat nbAct) mapping)) as [Hok|Hbad];
      [exact Hok|].
    unfold sendCommand in E.
    rewrite pull_input_undefined in E by (right; exact Hbad); discriminate.
  - unfold sendCommand in E.
    rewrite pull_input_undefined in E by (left; lia); discriminate.
Qed.

Lemma warnings_from_short (v : list T) :
  forall first,
    (List.length (warnings_from first v) <= List.length v)%nat
    /\ dispatches (warnings_from first v) = 0%nat.
Proof.
  induction v as [|x v IH]; intros first; [split; reflexivity|].
  destruct (IH (first + 1)) as [IHl IHd].
  cbn [warnings_from List.length]; unfold dispatches in *.
  rewrite filter_app, !length_app, IHd.
  destruct (saturated x); cbn [filter is_dispatch List.length]; split; lia.
Qed.

Lemma warnings_from_NoDup (v : list T) :
  forall first, NoDup (warnings_from first v).
Proof.
  induction v as [|x v IH]; intros first; [constructor|].
  cbn [warnings_from].
  destruct (saturated x); cbn [app]; [|apply IH].
  constructor; [|apply IH].
  intros Hin.
  destruct (warnings_from_labels v (first + 1) _ Hin) as (k & Hk & Hrange).
  injection Hk as <-; lia.
Qed.

End DispatcherShape.

(** X7: [sendCommand] is defined exactly when the mapping has at least
    [nbAct] entries and each of the first [nbAct] indexes the image;
    otherwise it reads outside the mapping or outside the image. *)
Theorem sendCommand_defined_iff {T : Type} `{Scalar T}
        (send_status : Z) (image : list sample) (nbAct : Z)
        (nobias nonorm fractional : Z) (max_stroke volume_factor : T)
        (mapping : list Z) :
  (exists r, sendCommand send_status image nbAct nobias nonorm fractional
               max_stroke volume_factor mapping = Done r)
  <-> nbAct <= Z.of_nat (List.length mapping)
      /\ Forall (in_image image) (firstn (Z.to_nat nbAct) mapping).
Proof.
  split.
  - intros [r E]; eapply sendCommand_needs; exact E.
  - intros [Hn Hrange]; eexists.
    apply sendCommand_when_defined; assumption.
Qed.

(** X8: whenever [sendCommand] is defined it returns the status that
    [asdkSend] answered, and its events are saturation warnings, each
    naming one of the actuators 1 to [nbAct] and none of them twice,
    followed by one single send of a vector of [nbAct] values. *)
Theorem sendCommand_sends_once {T : Type} `{Scalar T}
        (send_status : Z) (image : list sample) (nbAct : Z)
        (nobias nonorm fractional : Z) (max_stroke volume_factor : T)
        (mapping : list Z) (ret : Z) (out : trace) :
  sendCommand send_status image nbAct nobias nonorm fractional max_stroke
    volume_factor mapping = Done (ret, out) ->
  ret = send_status
  /\ exists (ws : trace) (d : list T),
       out = ws ++ [Asdk_send d send_status]
       /\ dispatches ws = 0%nat
       /\ (List.length ws <= List.length d)%nat
       /\ List.length d = Z.to_nat nbAct
       /\ (forall e, In e ws ->
             exists k, e = Print_saturated k /\ 1 <= k <= nbAct)
       /\ NoDup ws.
Proof.
  intros E.
  destruct (sendCommand_needs _ _ _ _ _ _ _ _ _ _ E) as [Hn Hrange].
  rewrite sendCommand_when_defined in E by assumption.
  injection E as <- <-.
  split; [reflexivity|].
  set (staged := staged_input image nbAct nobias nonorm fractional max_stroke
                   volume_factor mapping).
  assert (Hstaged : List.length staged = Z.to_nat nbAct).
  { unfold staged, staged_input.
    rewrite unclipped_length; unfold mapped_input.
    rewrite length_map, firstn_length_le by lia; reflexivity. }
  destruct (warnings_from_short staged 1) as [Hl Hd].
  exists (warnings_from 1 staged), (clip_stage staged).
  split; [reflexivity|].
  split; [exact Hd|].
  split; [now rewrite clip_stage_length|].
  split; [now rewrite clip_stage_length|].
  split.
  - intros e Hin.
    destruct (warnings_from_labels staged 1 e Hin) as (k & -> & Hk).
    exists k; split; [reflexivity|].
    rewrite Hstaged in Hk.
    destruct (Z.le_gt_cases 0 nbAct); [rewrite Z2Nat.id in Hk by lia; lia|].
    replace (Z.to_nat nbAct) with 0%nat in Hk by lia; lia.
  - apply warnings_from_NoDup.
Qed.

Lemma sendCommand_sends_once_witness :
  exists (ws : trace) (d : list Binary64.double),
    [Print_saturated 1; Print_saturated 2;
     Asdk_send [Binary64.one; Binary64.minus_one] 0]
    = ws ++ [Asdk_send d 0]
    /\ dispatches ws = 0%nat
    /\ (List.length ws <= List.length d)%nat
    /\ List.length d = 2%nat
    /\ (forall e, In e ws ->
          exists k, e = Print_saturated k /\ 1 <= k <= 2)
    /\ NoDup ws.
Proof.
  refine (proj2 (sendCommand_sends_once (H := double_scalar) 0 Example.frame 2
                   0 0 0 (Binary64.of_int 3) (Binary64.of_int 1) [60; 61] 0
                   _ _)).
  vm_compute; reflexivity.
Defined.

(** X9: with the three optional stages switched off, a frame whose mapped
    values do not saturate is sent as it is, without a warning. *)
Theorem sendCommand_passes_through {T : Type} `{Scalar T}
        (send_status : Z) (image : list sample) (nbAct : Z)
        (max_stroke volume_factor : T) (mapping : list Z) :
  nbAct <= Z.of_nat (List.length mapping) ->
  Forall (in_image image) (firstn (Z.to_nat nbAct) mapping) ->
  Forall (fun x => saturated x = false) (mapped_input image nbAct mapping) ->
  sendCommand send_status image nbAct 1 1 1 max_stroke volume_factor mapping
  = Done (send_status,
          [Asdk_send (mapped_input image nbAct mapping) send_status]).
Proof.
  intros Hn Hrange Hquiet.
  rewrite sendCommand_when_defined by assumption.
  unfold staged_input, unclipped, optional; cbn [Z.eqb Pos.eqb negb].
  destruct (clip_stage_unsaturated _ Hquiet) as [Hc Hw].
  now rewrite Hc, Hw.
Qed.

Lemma sendCommand_passes_through_witness :
  sendCommand (H := double_scalar) 5
    [Binary64.zero; Binary64.one; Binary64.minus_one] 2 1 1 1
    (Binary64.of_int 3) (Binary64.of_int 7) [2; 1]
  = Done (5, [Asdk_send [Binary64.minus_one; Binary64.one] 5]).
Proof.
  apply (sendCommand_passes_through (H := double_scalar) 5
           [Binary64.zero; Binary64.one; Binary64.minus_one] 2
           (Binary64.of_int 3) (Binary64.of_int 7) [2; 1]).
  - simpl; lia.
  - repeat constructor; unfold in_image; simpl; lia.
  - repeat constructor.
Defined.

(** ** The mapping: which cells, how many, and a file cut short *)

Lemma scan_row_member (pixels : list Z) (width : Z) (row : nat) (i : Z) :
  In i (scan_row pixels width (Z.of_nat row))
  <-> exists c : nat,
        (c < Z.to_nat width)%nat
        /\ i = Z.of_nat row * width + Z.of_nat c
        /\ nth (Z.to_nat i) pixels 0 > 0.
Proof.
  unfold scan_row; rewrite in_flat_map; split.
  - intros (c & Hc & Hin); apply in_seq in Hc.
    exists c; split; [lia|].
    destruct (Z.gtb_spec
                (nth (Z.to_nat (Z.of_nat row * width + Z.of_nat c)) pixels 0) 0)
      as [Hpos|Hnon]; [|destruct Hin].
    destruct Hin as [<-|[]]; split; [reflexivity | lia].
  - intros (c & Hc & -> & Hpos); exists c; split; [apply in_seq; lia|].
    destruct (Z.gtb_spec
                (nth (Z.to_nat (Z.of_nat row * width + Z.of_nat c)) pixels 0) 0)
      as [_|Hnon]; [now left | lia].
Qed.

Lemma scan_rows_member (pixels : list Z) (width : Z) (k : nat) (i : Z) :
  0 <= width ->
  In i (scan_rows pixels width k)
  <-> 0 <= i < Z.of_nat k * width /\ nth (Z.to_nat i) pixels 0 > 0.
Proof.
  intros Hw; unfold scan_rows; rewrite in_flat_map; split.
  - intros (row & Hrow & Hin).
    apply in_rev, in_seq in Hrow.
    apply scan_row_member in Hin as (c & Hc & -> & Hpos).
    split; [nia | exact Hpos].
  - intros [Hi Hpos].
    assert (Hwpos : 0 < width) by nia.
    exists (Z.to_nat (i / width)); split.
    + apply in_rev; rewrite rev_involutive; apply in_seq.
      assert (i / width < Z.of_nat k)
        by (apply Z.div_lt_upper_bound; lia).
      assert (0 <= i / width) by (apply Z.div_pos; lia).
      lia.
    + apply scan_row_member.
      exists (Z.to_nat (i mod width)).
      pose proof (Z.mod_pos_bound i width Hwpos) as Hmod.
      assert (0 <= i / width) by (apply Z.div_pos; lia).
      split; [lia|]; split; [|exact Hpos].
      rewrite !Z2Nat.id by lia.
      rewrite (Z.div_mod i width) at 1 by lia; ring.
Qed.

Lemma get_actuator_mapping_stores {T : Type} `{Scalar T}
      (img : fits_image) (pix0 : pointer) (nbAct : Z) (buffer : list Z) :
  hdu_is_image img = true ->
  naxis img = 2 ->
  0 <= naxes0 img ->
  0 <= naxes1 img ->
  Z.of_nat (List.length (pixels img)) = naxes0 img * naxes1 img ->
  naxes0 img * naxes1 img < 2 ^ 31 ->
  (count_positive (pixels img) <= List.length buffer)%nat ->
  let mapping := scan_grid (pixels img) (naxes0 img) (naxes1 img) in
  List.length mapping = count_positive (pixels img)
  /\ get_actuator_mapping (Some img) pix0 nbAct buffer
     = Done (0, mapping ++ skipn (List.length mapping) buffer, []).
Proof.
  intros Himg Haxis Hw Hh Hlen Hint Hroom mapping.
  assert (Hmul : Z.of_nat (Z.to_nat (naxes1 img)) * naxes0 img
                 = naxes0 img * naxes1 img) by (rewrite Z2Nat.id; lia).
  assert (Hcount : List.length mapping = count_positive (pixels img)).
  { unfold mapping, scan_grid.
    rewrite scan_rows_length by lia.
    rewrite Hmul, <- Hlen, Nat2Z.id, firstn_all; reflexivity. }
  split; [exact Hcount|].
  unfold get_actuator_mapping.
  rewrite Himg, Haxis; cbn [negb Z.eqb Pos.eqb].
  pose proof (@mapping_rows_scan img (Z.to_nat (naxes1 img)) [] buffer Hw)
    as E.
  cbn zeta in E; cbn [app List.length Z.of_nat Z.add] in E.
  rewrite Z2Nat.id in E by exact Hh.
  rewrite E; [reflexivity | lia | lia |].
  fold (scan_grid (pixels img) (naxes0 img) (naxes1 img)); fold mapping; lia.
Qed.

(** X10: for a well-formed mask and a buffer with room, the indices that
    [get_actuator_mapping] stores are exactly the flattened indices of the
    strictly positive cells: every positive cell is listed and no other. *)
Theorem get_actuator_mapping_lists_positive_cells {T : Type} `{Scalar T}
        (img : fits_image) (pix0 : pointer) (nbAct : Z) (buffer : list Z) :
  hdu_is_image img = true ->
  naxis img = 2 ->
  0 <= naxes0 img ->
  0 <= naxes1 img ->
  Z.of_nat (List.length (pixels img)) = naxes0 img * naxes1 img ->
  naxes0 img * naxes1 img < 2 ^ 31 ->
  (count_positive (pixels img) <= List.length buffer)%nat ->
  exists stored,
    get_actuator_mapping (Some img) pix0 nbAct buffer
    = Done (0, stored ++ skipn (List.length stored) buffer, [])
    /\ forall i,
        In i stored
        <-> 0 <= i < naxes0 img * naxes1 img
            /\ nth (Z.to_nat i) (pixels img) 0 > 0.
Proof.
  intros Himg Haxis Hw Hh Hlen Hint Hroom.
  destruct (get_actuator_mapping_stores img pix0 nbAct buffer
              Himg Haxis Hw Hh Hlen Hint Hroom) as [_ E].
  eexists; split; [exact E|].
  intros i; unfold scan_grid.
  rewrite scan_rows_member by exact Hw.
  rewrite Z2Nat.id by exact Hh.
  rewrite (Z.mul_comm (naxes1 img)); reflexivity.
Qed.

Lemma get_actuator_mapping_lists_positive_cells_witness :
  exists stored,
    get_actuator_mapping (H := double_scalar)
      (Some {| hdu_is_image := true; naxis := 2; naxes0 := 3; naxes1 := 2;
               pixels := [1; 0; 1; 0; -4; 9] |})
      Null 3 [7; 7; 7; 7]
    = Done (0, stored ++ skipn (List.length stored) [7; 7; 7; 7], [])
    /\ forall i,
        In i stored
        <-> 0 <= i < 3 * 2 /\ nth (Z.to_nat i) [1; 0; 1; 0; -4; 9] 0 > 0.
Proof.
  apply (get_actuator_mapping_lists_positive_cells (H := double_scalar)
           {| hdu_is_image := true; naxis := 2; naxes0 := 3; naxes1 := 2;
              pixels := [1; 0; 1; 0; -4; 9] |}
           Null 3 [7; 7; 7; 7]);
    try reflexivity; try (simpl; lia); try (vm_compute; lia).
Defined.

(** X11: when the file holds fewer pixels than its header announces, the
    first row that is read, the last one, cannot be read: nothing is stored,
    the CFITSIO error is reported, and the function still returns 0. *)
Theorem get_actuator_mapping_short_file {T : Type} `{Scalar T}
        (img : fits_image) (pix0 : pointer) (nbAct : Z) (buffer : list Z) :
  hdu_is_image img = true ->
  naxis img = 2 ->
  0 <= naxes0 img ->
  Z.of_nat (List.length (pixels img)) < naxes0 img * naxes1 img ->
  get_actuator_mapping (Some img) pix0 nbAct buffer
  = Done (0, buffer, [Fits_report_error]).
Proof.
  intros Himg Haxis Hw Hshort.
  assert (Hh : 0 < naxes1 img) by nia.
  unfold get_actuator_mapping.
  rewrite Himg, Haxis; cbn [negb Z.eqb Pos.eqb].
  destruct (Z.to_nat (naxes1 img)) as [|k] eqn:Ek; [lia|].
  cbn [mapping_rows].
  unfold fits_read_pix.
  assert (Hfirst : 0 <= (naxes1 img - 1) * naxes0 img) by nia.
  destruct (Z.leb_spec 0 ((naxes1 img - 1) * naxes0 img)); [|lia].
  destruct (Z.leb_spec 0 (naxes0 img)); [|lia].
  destruct (Z.leb_spec ((naxes1 img - 1) * naxes0 img + naxes0 img)
                       (Z.of_nat (List.length (pixels img)))); [nia|].
  reflexivity.
Qed.

Lemma get_actuator_mapping_short_file_witness :
  get_actuator_mapping (H := double_scalar)
    (Some {| hdu_is_image := true; naxis := 2; naxes0 := 3; naxes1 := 2;
             pixels := [1; 1; 1; 1; 1] |})
    Null 3 [7; 7; 7]
  = Done (0, [7; 7; 7], [Fits_report_error]).
Proof.
  apply (get_actuator_mapping_short_file (H := double_scalar)
           {| hdu_is_image := true; naxis := 2; naxes0 := 3; naxes1 := 2;
              pixels := [1; 1; 1; 1; 1] |}
           Null 3 [7; 7; 7]);
    try reflexivity; simpl; lia.
Defined.

Lemma arr_set_at_end {A : Type} (a : list A) (v : A) :
  arr_set a (Z.of_nat (List.length a)) v = Undefined.
Proof.
  unfold arr_set.
  destruct (Z.ltb_spec (Z.of_nat (List.length a)) 0); [reflexivity|].
  rewrite Nat2Z.id, list_set_beyond by lia; reflexivity.
Qed.

(** The inner loop when the row has more positive cells than the buffer
    has cells left. *)
Lemma mapping_cols_overflow (pix : list Z) (row width : Z) (suf : list Z) :
  forall (pre done rest : list Z) (i j : Z),
    pix = pre ++ suf ->
    i = Z.of_nat (List.length pre) ->
    j = Z.of_nat (List.length done) ->
    (List.length rest
     < List.length (emit_row ((row - 1) * width) pix (List.length pre)
                             (List.length suf)))%nat ->
    for_loop (List.length suf) i (mapping_body pix row width) (done ++ rest, j)
    = Undefined.
Proof.
  induction suf as [|x suf IH]; intros pre done rest i j Hpix Hi Hj Hmore.
  - cbn in Hmore; lia.
  - cbn [List.length for_loop].
    unfold mapping_body at 1.
    rewrite Hpix at 1; subst i; rewrite arr_get_middle; cbn [bind].
    cbn [List.length] in Hmore; rewrite emit_row_step in Hmore.
    rewrite Hpix in Hmore at 1; rewrite nth_middle in Hmore.
    assert (Hpix' : pix = (pre ++ [x]) ++ suf) by now rewrite <- app_assoc.
    assert (Hlen' : List.length (pre ++ [x]) = Datatypes.S (List.length pre))
      by (rewrite length_app; simpl; lia).
    destruct (x >? 0) eqn:Ex; cbn [app List.length] in Hmore.
    + destruct rest as [|y rest].
      * subst j; rewrite app_nil_r, arr_set_at_end; reflexivity.
      * subst j; rewrite arr_set_middle; cbn [bind].
        set (v := to_int32 ((row - 1) * width + Z.of_nat (List.length pre))).
        pose proof (IH (pre ++ [x]) (done ++ [v]) rest
                      (Z.of_nat (List.length pre) + 1)
                      (Z.of_nat (List.length done) + 1) Hpix') as E.
        rewrite Hlen' in E.
        rewrite <- !app_assoc in E; cbn [app] in E.
        apply E; [lia | rewrite length_app; simpl; lia |].
        simpl in Hmore; lia.
    + pose proof (IH (pre ++ [x]) done rest
                    (Z.of_nat (List.length pre) + 1) j Hpix') as E.
      rewrite Hlen' in E.
      apply E; [lia | exact Hj | exact Hmore].
Qed.

(** The outer loop when the grid has more positive cells than the buffer
    has cells left. *)
Lemma mapping_rows_overflow (img : fits_image) (k : nat) :
  forall (done rest : list Z),
    0 <= naxes0 img ->
    Z.of_nat k * naxes0 img <= Z.of_nat (List.length (pixels img)) ->
    Z.of_nat k * naxes0 img <= 2 ^ 31 ->
    (List.length rest
     < List.length (scan_rows (pixels img) (naxes0 img) k))%nat ->
    mapping_rows img k (Z.of_nat k) (done ++ rest, Z.of_nat (List.length done))
    = Undefined.
Proof.
  induction k as [|k IH]; intros done rest Hw Hfit Hint Hmore.
  - cbn in Hmore; lia.
  - assert (Hk : 0 <= Z.of_nat k * naxes0 img)
      by (apply Z.mul_nonneg_nonneg; lia).
    cbn [mapping_rows].
    rewrite fits_read_pix_row by assumption.
    set (pix := firstn (Z.to_nat (naxes0 img))
                  (skipn (Z.to_nat (Z.of_nat k * naxes0 img)) (pixels img))).
    assert (Hpix : List.length pix = Z.to_nat (naxes0 img))
      by (apply row_buffer_length; assumption).
    set (row := scan_row (pixels img) (naxes0 img) (Z.of_nat k)).
    assert (Hrow : row = emit_row ((Z.of_nat (Datatypes.S k) - 1) * naxes0 img)
                           pix 0 (List.length pix)).
    { unfold row; rewrite scan_row_emit by exact Hw.
      rewrite Hpix; f_equal; lia. }
    rewrite scan_rows_step, length_app in Hmore; fold row in Hmore.
    unfold for_upto; rewrite <- Hpix.
    destruct (Nat.le_gt_cases (List.length row) (List.length rest))
      as [Hroom|Hnone].
    + pose proof (@mapping_cols pix (Z.of_nat (Datatypes.S k)) (naxes0 img) pix
                    [] done rest 0 (Z.of_nat (List.length done))
                    eq_refl eq_refl eq_refl) as E.
      cbn zeta in E; cbn [List.length] in E; rewrite <- Hrow in E.
      rewrite E; [|lia|intros c Hc; cbn [Z.of_nat] in Hc; lia].
      cbn [bind].
      replace (Z.of_nat (Datatypes.S k) - 1) with (Z.of_nat k) by lia.
      pose proof (IH (done ++ row) (skipn (List.length row) rest) Hw) as E'.
      rewrite length_app, Nat2Z.inj_add, <- app_assoc in E'.
      apply E'; [lia | lia |].
      rewrite length_skipn; lia.
    + pose proof (@mapping_cols_overflow pix (Z.of_nat (Datatypes.S k))
                    (naxes0 img) pix [] done rest 0
                    (Z.of_nat (List.length done))
                    eq_refl eq_refl eq_refl) as E.
      cbn [List.length] in E; rewrite <- Hrow in E.
      rewrite E by exact Hnone; reflexivity.
Qed.

(** X12: when a well-formed mask has more strictly positive cells than the
    caller's buffer has entries, [get_actuator_mapping] stores past the end
    of the buffer: nothing in it compares the two. *)
Theorem get_actuator_mapping_overruns_buffer {T : Type} `{Scalar T}
        (img : fits_image) (pix0 : pointer) (nbAct : Z) (buffer : list Z) :
  hdu_is_image img = true ->
  naxis img = 2 ->
  0 <= naxes0 img ->
  0 <= naxes1 img ->
  Z.of_nat (List.length (pixels img)) = naxes0 img * naxes1 img ->
  naxes0 img * naxes1 img < 2 ^ 31 ->
  (List.length buffer < count_positive (pixels img))%nat ->
  get_actuator_mapping (Some img) pix0 nbAct buffer = Undefined.
Proof.
  intros Himg Haxis Hw Hh Hlen Hint Hmore.
  assert (Hmul : Z.of_nat (Z.to_nat (naxes1 img)) * naxes0 img
                 = naxes0 img * naxes1 img) by (rewrite Z2Nat.id; lia).
  unfold get_actuator_mapping.
  rewrite Himg, Haxis; cbn [negb Z.eqb Pos.eqb].
  pose proof (@mapping_rows_overflow img (Z.to_nat (naxes1 img)) [] buffer Hw)
    as E.
  cbn [app List.length Z.of_nat] in E.
  rewrite Z2Nat.id in E by exact Hh.
  rewrite E; [reflexivity | lia | lia |].
  rewrite scan_rows_length by lia.
  rewrite Hmul, <- Hlen, Nat2Z.id, firstn_all; exact Hmore.
Qed.

Lemma get_actuator_mapping_overruns_buffer_witness :
  get_actuator_mapping (H := double_scalar)
    (Some {| hdu_is_image := true; naxis := 2; naxes0 := 3; naxes1 := 2;
             pixels := [1; 0; 1; 0; 1; 1] |})
    Null 3 [7; 7; 7]
  = Undefined.
Proof.
  apply (get_actuator_mapping_overruns_buffer (H := double_scalar)
           {| hdu_is_image := true; naxis := 2; naxes0 := 3; naxes1 := 2;
              pixels := [1; 0; 1; 0; 1; 1] |}
           Null 3 [7; 7; 7]);
    try reflexivity; try (simpl; lia); try (vm_compute; lia).
Defined.

(** ** The calibration file, line by line *)

(** X13: for a file that opens, what [parse_calibration_file] returns is
    decided by the number of lines alone: with exactly two lines the two
    constants are what [strtod] reads from them, whatever the fresh block
    held; with fewer lines the block's contents show through; a third line
    is stored past the two-element block. *)
Theorem parse_calibration_file_by_line_count {T : Type} `{Scalar T}
        (lines : list cal_line) (h0 h1 : T) :
  parse_calibration_file true (Some lines) (h0, h1)
  = match lines with
    | [] => Done (0, Some (h0, h1))
    | [l1] => Done (0, Some (strtod l1, h1))
    | [l1; l2] => Done (0, Some (strtod l1, strtod l2))
    | _ :: _ :: _ :: _ => Undefined
    end.
Proof.
  destruct lines as [|l1 [|l2 [|l3 rest]]]; reflexivity.
Qed.

(** ** The signal handler *)


(** ** The command line *)

Section CommandLineFacts.

Variable Str : Type.
Variables ARGP_KEY_ARG ARGP_KEY_END ARGP_ERR_UNKNOWN : Z.

Lemma arr_set_inside {A : Type} (a : list A) (i : Z) (v : A) :
  0 <= i < Z.of_nat (List.length a) ->
  exists a', arr_set a i v = Done a'
             /\ List.length a' = List.length a
             /\ nth_error a' (Z.to_nat i) = Some v.
Proof.
  intros Hi.
  destruct (skipn (Z.to_nat i) a) as [|x post] eqn:Es.
  - assert (List.length (skipn (Z.to_nat i) a) = 0%nat) by now rewrite Es.
    rewrite length_skipn in *; lia.
  - pose proof (arr_set_middle (firstn (Z.to_nat i) a) post x v) as E.
    rewrite <- Es, firstn_skipn, firstn_length_le, Z2Nat.id in E by lia.
    eexists; split; [exact E|]; split.
    + rewrite <- (firstn_skipn (Z.to_nat i) a) at 2.
      rewrite Es, !length_app; reflexivity.
    + rewrite nth_error_app2 by (rewrite firstn_length_le; lia).
      rewrite firstn_length_le, Nat.sub_diag by lia; reflexivity.
Qed.

(** X15: whatever the key, [parse_opt] stays within the two slots of
    [args]: it either ends in the usage message or returns, with 0 or with
    ARGP_ERR_UNKNOWN, a structure that still has two slots and in which no
    flag has been cleared. *)
Theorem parse_opt_keeps_structure (key : Z) (arg : option Str) (arg_num : Z)
        (a : arguments Str) :
  0 <= arg_num ->
  List.length (args a) = 2%nat ->
  parse_opt ARGP_KEY_ARG ARGP_KEY_END ARGP_ERR_UNKNOWN key arg arg_num a
  = Done (Usage_exit Str)
  \/ exists ret a',
       parse_opt ARGP_KEY_ARG ARGP_KEY_END ARGP_ERR_UNKNOWN key arg arg_num a
       = Done (Returns ret a')
       /\ (ret = 0 \/ ret = ARGP_ERR_UNKNOWN)
       /\ List.length (args a') = 2%nat
       /\ (arg_nobias a' = arg_nobias a \/ arg_nobias a' = 1)
       /\ (arg_nonorm a' = arg_nonorm a \/ arg_nonorm a' = 1)
       /\ (arg_fractional a' = arg_fractional a \/ arg_fractional a' = 1).
Proof.
  intros Hnum Hlen.
  assert (Hpos : forall b : arguments Str,
             List.length (args b) = 2%nat ->
             parse_positional arg arg_num b = Done (Usage_exit Str)
             \/ exists slots,
                  parse_positional arg arg_num b
                  = Done (Returns 0 {| args := slots;
                                       arg_nobias := arg_nobias b;
                                       arg_nonorm := arg_nonorm b;
                                       arg_fractional := arg_fractional b |})
                  /\ List.length slots = 2%nat).
  { intros b Hb; unfold parse_positional.
    destruct (Z.geb_spec arg_num 2); [now left | right].
    destruct (arr_set_inside (args b) arg_num arg) as (slots & E & Hl & _);
      [lia|].
    exists slots; rewrite E; split; [reflexivity | congruence]. }
  unfold parse_opt.
  destruct (key =? key_b); [right; eexists; eexists; split; [reflexivity|];
                            cbn; auto 10|].
  destruct (key =? key_n); [right; eexists; eexists; split; [reflexivity|];
                            cbn; auto 10|].
  destruct (key =? key_f).
  { destruct (Hpos {| args := args a; arg_nobias := arg_nobias a;
                      arg_nonorm := arg_nonorm a; arg_fractional := 1 |} Hlen)
      as [E|(slots & E & Hl)]; [now left | right].
    eexists; eexists; split; [exact E|]; cbn; auto 10. }
  destruct (key =? ARGP_KEY_ARG).
  { destruct (Hpos a Hlen) as [E|(slots & E & Hl)]; [now left | right].
    eexists; eexists; split; [exact E|]; cbn; auto 10. }
  destruct (key =? ARGP_KEY_END).
  { destruct (arg_num <? 2); [now left | right].
    eexists; eexists; split; [reflexivity|]; auto 10. }
  right; eexists; eexists; split; [reflexivity|]; auto 10.
Qed.

(** X16: the case ['f'] has no [break] and runs into the case for a
    positional argument: with two positional arguments already read it ends
    in the usage message, and before that it stores its own [arg] in the
    slot of the next positional argument; the cases ['b'] and ['n'] return 0
    and leave [args] alone wherever they come. *)
Theorem parse_opt_f_falls_through (arg : option Str) (arg_num : Z)
        (a : arguments Str) :
  (2 <= arg_num ->
   parse_opt ARGP_KEY_ARG ARGP_KEY_END ARGP_ERR_UNKNOWN key_f arg arg_num a
   = Done (Usage_exit Str))
  /\ (0 <= arg_num < 2 ->
      List.length (args a) = 2%nat ->
      exists slots,
        parse_opt ARGP_KEY_ARG ARGP_KEY_END ARGP_ERR_UNKNOWN key_f arg arg_num a
        = Done (Returns 0 {| args := slots; arg_nobias := arg_nobias a;
                             arg_nonorm := arg_nonorm a;
                             arg_fractional := 1 |})
        /\ nth_error slots (Z.to_nat arg_num) = Some arg)
  /\ (exists a',
        parse_opt ARGP_KEY_ARG ARGP_KEY_END ARGP_ERR_UNKNOWN key_b arg arg_num a
        = Done (Returns 0 a')
        /\ args a' = args a)
  /\ (exists a',
        parse_opt ARGP_KEY_ARG ARGP_KEY_END ARGP_ERR_UNKNOWN key_n arg arg_num a
        = Done (Returns 0 a')
        /\ args a' = args a).
Proof.
  repeat split.
  - intros Hn; unfold parse_opt; cbn [Z.eqb key_f key_b key_n Pos.eqb].
    unfold parse_positional.
    destruct (Z.geb_spec arg_num 2); [reflexivity | lia].
  - intros Hn Hlen; unfold parse_opt; cbn [Z.eqb key_f key_b key_n Pos.eqb].
    unfold parse_positional; cbn [args arg_nobias arg_nonorm arg_fractional].
    destruct (Z.geb_spec arg_num 2); [lia|].
    destruct (arr_set_inside (args a) arg_num arg) as (slots & E & _ & Hs);
      [lia|].
    exists slots; rewrite E; split; [reflexivity | exact Hs].
  - eexists; split; reflexivity.
  - eexists; split; reflexivity.
Qed.

End CommandLineFacts.

Lemma parse_opt_keeps_structure_witness :
  let a := {| args := [Some 1%nat; None]; arg_nobias := 1; arg_nonorm := 0;
              arg_fractional := 0 |} in
  parse_opt 0 16777217 7 key_f None 1 a = Done (Usage_exit nat)
  \/ exists ret a',
       parse_opt 0 16777217 7 key_f None 1 a = Done (Returns ret a')
       /\ (ret = 0 \/ ret = 7)
       /\ List.length (args a') = 2%nat
       /\ (arg_nobias a' = arg_nobias a \/ arg_nobias a' = 1)
       /\ (arg_nonorm a' = arg_nonorm a \/ arg_nonorm a' = 1)
       /\ (arg_fractional a' = arg_fractional a \/ arg_fractional a' = 1).
Proof.
  intros a.
  apply (parse_opt_keeps_structure nat 0 16777217 7 key_f None 1 a).
  - lia.
  - reflexivity.
Defined.

Lemma parse_opt_f_falls_through_witness :
  let a := {| args := [Some 1%nat; Some 2%nat]; arg_nobias := 0;
              arg_nonorm := 0; arg_fractional := 0 |} in
  parse_opt 0 16777217 7 key_f None 2 a = Done (Usage_exit nat)
  /\ exists slots,
       parse_opt 0 16777217 7 key_f None 1 a
       = Done (Returns 0 {| args := slots; arg_nobias := 0; arg_nonorm := 0;
                            arg_fractional := 1 |})
       /\ nth_error slots 1 = Some None.
Proof.
  intros a.
  destruct (parse_opt_f_falls_through nat 0 16777217 7 None 2 a) as (H2 & _).
  destruct (parse_opt_f_falls_through nat 0 16777217 7 None 1 a)
    as (_ & H1 & _).
  split; [apply H2; lia | apply H1; [lia | reflexivity]].
Defined.

(** ** Runs of the control loop *)

Section Runs.

Context {T : Type} `{Scalar T}.

Lemma dispatches_app (a b : trace) :
  dispatches (a ++ b) = (dispatches a + dispatches b)%nat.
Proof. unfold dispatches; now rewrite filter_app, length_app. Qed.

Lemma plain_no_dispatch (a : trace) :
  forallb is_plain a = true -> dispatches a = 0%nat.
Proof.
  induction a as [|e a IH]; intros Ha; [reflexivity|].
  cbn [forallb] in Ha; apply andb_prop in Ha as [He Ha].
  unfold dispatches in *; cbn [filter].
  destruct e; try discriminate; cbn [is_dispatch]; auto.
Qed.

Lemma stop_seen_in (tr : trace) :
  existsb is_stop_seen tr = true <-> In (Read_stop true) tr.
Proof.
  rewrite existsb_exists; split.
  - intros (e & Hin & He).
    destruct e as [| | | | | | | | | | | | | | | | [|]]; try discriminate.
    exact Hin.
  - intros Hin; exists (Read_stop true); split; [exact Hin | reflexivity].
Qed.

Lemma stop_ends_unseen (tr : trace) :
  stop_ends tr = true ->
  ~ In (Read_stop true) tr ->
  ~ In Asdk_reset tr /\ ~ In Asdk_release tr.
Proof.
  induction tr as [|e tr IH]; intros Hends Hno; [split; intros []|].
  assert (Hno' : ~ In (Read_stop true) tr) by (intros Hc; apply Hno; now right).
  destruct e as [| | | | | | | | | | | | | | | | [|]];
    cbn [stop_ends] in Hends; try discriminate;
    try (destruct (IH Hends Hno') as [Hr Hl];
         split; intros [Hc|Hc]; try discriminate; auto).
  exfalso; apply Hno; now left.
Qed.

(** The loop proper: how many sends, and why it returns. *)
Lemma control_cycles_account (nbAct nobias nonorm fractional : Z)
      (max_stroke volume_factor : T) (mapping : list Z) (release : Z)
      (script : list wake) :
  forall (stop : bool) (t : termination) (tr : trace),
    control_cycles nbAct nobias nonorm fractional max_stroke volume_factor
      mapping release stop script = Done (t, tr) ->
    (dispatches tr <= List.length script)%nat
    /\ (forall r, t = Returned r ->
                  In (Read_stop true) tr
                  \/ (r = -1 /\ existsb is_failed_send tr = true))
    /\ (stop = false -> Forall quiet_wake script ->
        t = Blocked /\ dispatches tr = List.length script).
Proof.
  induction script as [|w script IH]; intros stop t tr E.
  - cbn in E; destruct stop; injection E as <- <-;
      (split; [cbn; lia | split]).
    + intros r _; left; now left.
    + discriminate.
    + discriminate.
    + intros _ _; split; reflexivity.
  - cbn [control_cycles] in E.
    destruct (stop || sigint_before_test w) eqn:Estop.
    { injection E as <- <-; split; [cbn; lia | split].
      - intros r _; left; now left.
      - intros -> Hq; inversion Hq as [|? ? (Hb & _ & _) _]; subst.
        cbn in Estop; congruence. }
    destruct (sigint_in_wait w) eqn:Ewait.
    { rewrite control_cycles_stopped in E; cbn [bind] in E.
      injection E as <- <-; split; [cbn; lia | split].
      - intros r _; left; right; right; now left.
      - intros _ Hq; inversion Hq as [|? ? (_ & Hw & _) _]; congruence. }
    apply bind_done in E as ([ret out] & Hsend & E).
    apply sendCommand_trace in Hsend as (-> & ws & d & -> & Hws).
    pose proof (plain_no_dispatch ws Hws) as Hd.
    assert (Hone : forall rest : trace,
               dispatches ([Read_stop false; Sem_wait 0; Read_stop false]
                             ++ (ws ++ [Asdk_send d (wake_send w)]) ++ rest)
               = Datatypes.S (dispatches rest)).
    { intros rest.
      change ([Read_stop false; Sem_wait 0; Read_stop false]
                ++ (ws ++ [Asdk_send d (wake_send w)]) ++ rest)
        with (Read_stop false :: Sem_wait 0 :: Read_stop false
                :: (ws ++ [Asdk_send d (wake_send w)]) ++ rest).
      unfold dispatches at 1; cbn [filter is_dispatch].
      fold (dispatches ((ws ++ [Asdk_send d (wake_send w)]) ++ rest)).
      rewrite !dispatches_app, Hd; reflexivity. }
    destruct (wake_send w =? -1) eqn:Est.
    + injection E as <- <-.
      pose proof (Hone []) as Hn; rewrite app_nil_r in Hn.
      split; [etransitivity; [apply Nat.eq_le_incl; exact Hn | cbn; lia] | split].
      * intros r [= <-]; right; split; [reflexivity|].
        cbn [app existsb is_failed_send orb].
        rewrite any_failed_plain by exact Hws; cbn; now rewrite Est.
      * intros _ Hq; inversion Hq as [|? ? (_ & _ & Hs) _].
        apply Z.eqb_eq in Est; congruence.
    + apply bind_done in E as ([t' tr'] & Hrest & E).
      injection E as <- <-.
      destruct (IH _ _ _ Hrest) as (Hle & Hret & Hquiet).
      split; [etransitivity;
               [apply Nat.eq_le_incl; exact (Hone tr') | cbn; lia] | split].
      * intros r Hr; destruct (Hret r Hr) as [Hin|[-> Hf]].
        -- left; right; right; right.
           apply in_or_app; now right.
        -- right; split; [reflexivity|].
           cbn [app existsb is_failed_send orb].
           rewrite <- app_assoc, any_failed_plain by exact Hws.
           cbn [app existsb is_failed_send]; rewrite Est; exact Hf.
      * intros _ Hq; inversion Hq as [|? ? _ Hq']; subst.
        destruct (Hquiet eq_refl Hq') as [-> Hn].
        split; [reflexivity|].
        etransitivity; [exact (Hone tr') | now rewrite Hn].
Qed.

(** A run either fails during start-up, having sent nothing, or passes
    every start-up test, sends the first command and enters the loop. *)
Lemma controlLoop_anatomy (env : startup) (nobias nonorm fractional : Z)
      (script : list wake) (t : termination) (tr : trace) :
  controlLoop env nobias nonorm fractional script = Done (t, tr) ->
  (t = Returned (-1) /\ forallb is_plain tr = true /\ ~ startup_passed env)
  \/ (startup_passed env
      /\ exists (pre : trace) (d : list T),
           forallb is_plain pre = true
           /\ ((first_send env = -1 /\ t = Returned (-1)
                /\ tr = pre ++ [Asdk_send d (-1)])
               \/ (first_send env <> -1
                   /\ exists (nbAct : Z) (max_stroke volume_factor : T)
                             (mapping : list Z) (tr' : trace),
                        control_cycles nbAct nobias nonorm fractional
                          max_stroke volume_factor mapping
                          (release_status env) false script = Done (t, tr')
                        /\ tr = pre ++ Asdk_send d (first_send env) :: tr'))).
Proof.
  unfold controlLoop; intros E.
  apply bind_done in E as ([ret calib] & Hcal & E).
  unfold parse_calibration_file in Hcal.
  destruct (root_set env) eqn:Eroot; [|discriminate].
  cbn [negb] in Hcal.
  destruct (calib_file env) as [lines|] eqn:Efile.
  2:{ injection Hcal as <- <-; cbn in E; injection E as <- <-.
      left; split; [reflexivity|]; split; [reflexivity|].
      intros (_ & Hf & _); now apply Hf. }
  assert (Hret : ret = 0).
  { apply bind_done in Hcal as (c & _ & Hcal).
    apply bind_done in Hcal as (m & _ & Hcal).
    apply bind_done in Hcal as (f & _ & Hcal).
    now injection Hcal as <- _. }
  subst ret; cbn [Z.eqb] in E.
  destruct calib as [[max_stroke volume_factor]|]; [|discriminate].
  destruct (dm_found env) eqn:Edm; cbn [negb] in E.
  2:{ injection E as <- <-.
      left; split; [reflexivity|]; split; [reflexivity|].
      intros (_ & _ & Hd & _); congruence. }
  destruct (get_status env =? -1) eqn:Eget.
  { injection E as <- <-.
    left; split; [reflexivity|]; split; [reflexivity|].
    apply Z.eqb_eq in Eget; intros (_ & _ & _ & Hg & _); congruence. }
  apply bind_done in E as (nbAct & _ & E).
  apply bind_done in E as ([[r mapping] out_map] & Hmap & E).
  apply get_actuator_mapping_out in Hmap.
  apply bind_done in E as (out_shm & Hshm & E).
  apply initializeSharedMemory_out in Hshm.
  assert (Hout : forallb is_plain
                   ([Asdk_init; Asdk_get] ++ out_map ++ out_shm ++ [Shm_attach])
                 = true).
  { cbn [app forallb is_plain andb].
    rewrite !forallb_app, Hmap, Hshm; reflexivity. }
  destruct (attached_naxis env =? 2) eqn:Enaxis; cbn [negb] in E.
  2:{ injection E as <- <-.
      left; split; [reflexivity|]; split; [exact Hout|].
      apply Z.eqb_neq in Enaxis.
      intros (_ & _ & _ & _ & Hn & _); congruence. }
  destruct (attached_size0 env =? shm_dim) eqn:Esize0; cbn [negb] in E.
  2:{ injection E as <- <-.
      left; split; [reflexivity|]; split; [exact Hout|].
      apply Z.eqb_neq in Esize0; unfold shm_dim in Esize0.
      intros (_ & _ & _ & _ & _ & Hn & _); congruence. }
  destruct (attached_size1 env =? shm_dim) eqn:Esize1; cbn [negb] in E.
  2:{ injection E as <- <-.
      left; split; [reflexivity|]; split; [exact Hout|].
      apply Z.eqb_neq in Esize1; unfold shm_dim in Esize1.
      intros (_ & _ & _ & _ & _ & _ & Hn); congruence. }
  apply bind_done in E as ([ret1 out_send] & Hsend & E).
  apply sendCommand_trace in Hsend as (-> & ws & d & -> & Hws).
  right; split.
  { unfold startup_passed.
    apply Z.eqb_neq in Eget.
    apply Z.eqb_eq in Enaxis, Esize0, Esize1.
    unfold shm_dim in *.
    rewrite Efile.
    repeat (split; [assumption || discriminate|]); assumption. }
  exists (([Asdk_init; Asdk_get] ++ out_map ++ out_shm ++ [Shm_attach])
            ++ [Sem_wait 0] ++ ws), d.
  split.
  { etransitivity; [apply forallb_app|].
    apply andb_true_intro; split; [exact Hout | exact Hws]. }
  destruct (first_send env =? -1) eqn:Est.
  - left; apply Z.eqb_eq in Est.
    injection E as <- <-.
    split; [exact Est|]; split; [reflexivity|].
    rewrite Est; unfold trace in *.
    rewrite <- !app_assoc; reflexivity.
  - right; apply Z.eqb_neq in Est.
    apply bind_done in E as ([t' tr'] & Hloop & E).
    injection E as <- <-.
    split; [exact Est|].
    exists (to_int32 nbAct), max_stroke, volume_factor, mapping, tr'.
    split; [exact Hloop|].
    unfold trace in *.
    rewrite <- !app_assoc; cbn [app].
    rewrite <- !app_assoc; reflexivity.
Qed.

Lemma dispatches_after_plain (pre : trace) (d : list T) (status : Z)
      (rest : trace) :
  forallb is_plain pre = true ->
  dispatches (pre ++ Asdk_send d status :: rest)
  = Datatypes.S (dispatches rest).
Proof.
  intros Hpre; rewrite dispatches_app, (plain_no_dispatch pre Hpre).
  reflexivity.
Qed.

End Runs.

(** X17: the mirror is only ever commanded after a complete start-up: a run
    of [controlLoop] that sends anything has found the calibration file, the
    device and its actuator count, and an 11 by 11 two-dimensional image. *)
Theorem controlLoop_sends_after_startup {T : Type} `{Scalar T}
        (env : startup) (nobias nonorm fractional : Z) (script : list wake)
        (t : termination) (tr : trace) :
  controlLoop env nobias nonorm fractional script = Done (t, tr) ->
  (0 < dispatches tr)%nat ->
  startup_passed env.
Proof.
  intros Hrun Hsent.
  apply controlLoop_anatomy in Hrun as [(_ & Hplain & _)|[Hpassed _]].
  - rewrite (plain_no_dispatch tr Hplain) in Hsent; lia.
  - exact Hpassed.
Qed.

Lemma controlLoop_sends_after_startup_witness :
  startup_passed Example.env.
Proof.
  assert (Hrun : controlLoop Example.env 0 0 0 Example.refused
                 = Done (Returned (-1),
                         Example.events_of
                           (controlLoop Example.env 0 0 0 Example.refused)))
    by (vm_compute; reflexivity).
  apply (controlLoop_sends_after_startup Example.env 0 0 0 Example.refused
           (Returned (-1)) _ Hrun).
  vm_compute; lia.
Defined.

(** X18: the device is reset and released only on the way out of a loop
    that read [stop] as set.  A run in which [stop] is never seen set does
    neither, and either blocks in the wait or returns -1 with the device
    still open. *)
Theorem controlLoop_release_needs_stop {T : Type} `{Scalar T}
        (env : startup) (nobias nonorm fractional : Z) (script : list wake)
        (t : termination) (tr : trace) :
  controlLoop env nobias nonorm fractional script = Done (t, tr) ->
  ~ In (Read_stop true) tr ->
  ~ In Asdk_reset tr /\ ~ In Asdk_release tr
  /\ (t = Blocked \/ t = Returned (-1)).
Proof.
  intros Hrun Hno.
  pose proof (controlLoop_ends_well env nobias nonorm fractional script t tr
                Hrun) as (_ & Hstop & _).
  destruct (stop_ends_unseen tr Hstop Hno) as [Hreset Hrelease].
  split; [exact Hreset|]; split; [exact Hrelease|].
  apply controlLoop_anatomy in Hrun
    as [(-> & _)|(_ & pre & d & Hpre & [(_ & -> & _)|(_ & Hloop)])];
    [now right | now right |].
  destruct Hloop as (nbAct & ms & vf & mapping & tr' & Hloop & ->).
  apply control_cycles_account in Hloop as (_ & Hret & _).
  destruct t as [r|]; [|now left].
  destruct (Hret r eq_refl) as [Hin|[-> _]]; [|now right].
  exfalso; apply Hno; apply in_or_app; right; now right.
Qed.

Lemma controlLoop_release_needs_stop_witness :
  let tr := Example.events_of (controlLoop Example.env 0 0 0 Example.refused) in
  ~ In Asdk_reset tr /\ ~ In Asdk_release tr
  /\ (Returned (-1) = Blocked \/ Returned (-1) = Returned (-1)).
Proof.
  intros tr.
  assert (Hrun : controlLoop Example.env 0 0 0 Example.refused
                 = Done (Returned (-1), tr))
    by (vm_compute; reflexivity).
  apply (controlLoop_release_needs_stop Example.env 0 0 0 Example.refused
           (Returned (-1)) tr Hrun).
  intros Hin; apply stop_seen_in in Hin.
  vm_compute in Hin; discriminate.
Defined.

(** X19: a run sends the first command and then at most one command per
    wake-up of the semaphore. *)
Theorem controlLoop_one_send_per_wake {T : Type} `{Scalar T}
        (env : startup) (nobias nonorm fractional : Z) (script : list wake)
        (t : termination) (tr : trace) :
  controlLoop env nobias nonorm fractional script = Done (t, tr) ->
  (dispatches tr <= Datatypes.S (List.length script))%nat.
Proof.
  intros Hrun.
  apply controlLoop_anatomy in Hrun
    as [(_ & Hplain & _)|(_ & pre & d & Hpre & [(_ & _ & ->)|(_ & Hloop)])].
  - rewrite (plain_no_dispatch tr Hplain); lia.
  - rewrite (dispatches_after_plain pre d (-1) [] Hpre); cbn; lia.
  - destruct Hloop as (nbAct & ms & vf & mapping & tr' & Hloop & ->).
    apply control_cycles_account in Hloop as (Hle & _).
    rewrite (dispatches_after_plain pre d _ tr' Hpre); lia.
Qed.

Lemma controlLoop_one_send_per_wake_witness :
  (dispatches
     (Example.events_of (controlLoop Example.env 0 0 0 Example.interrupted))
   <= 4)%nat.
Proof.
  apply (controlLoop_one_send_per_wake Example.env 0 0 0 Example.interrupted
           (Returned 0)).
  vm_compute; reflexivity.
Defined.

(** X20: without SIGINT and without a refused send the loop never ends:
    after a complete start-up, a run over wake-ups that are all quiet
    sends once per wake-up, plus the first command, and is left waiting. *)
Theorem controlLoop_runs_until_stopped {T : Type} `{Scalar T}
        (env : startup) (nobias nonorm fractional : Z) (script : list wake)
        (t : termination) (tr : trace) :
  controlLoop env nobias nonorm fractional script = Done (t, tr) ->
  startup_passed env ->
  first_send env <> -1 ->
  Forall quiet_wake script ->
  t = Blocked /\ dispatches tr = Datatypes.S (List.length script).
Proof.
  intros Hrun Hpassed Hfirst Hquiet.
  apply controlLoop_anatomy in Hrun
    as [(_ & _ & Hnot)|(_ & pre & d & Hpre & [(Hf & _)|(_ & Hloop)])].
  - contradiction.
  - contradiction.
  - destruct Hloop as (nbAct & ms & vf & mapping & tr' & Hloop & ->).
    apply control_cycles_account in Hloop as (_ & _ & Hq).
    destruct (Hq eq_refl Hquiet) as [-> Hn].
    split; [reflexivity|].
    rewrite (dispatches_after_plain pre d _ tr' Hpre), Hn; reflexivity.
Qed.

Lemma controlLoop_runs_until_stopped_witness :
  let script := [Example.wake_with false false 0;
                 Example.wake_with false false 0] in
  let tr := Example.events_of (controlLoop Example.env 0 0 0 script) in
  Blocked = Blocked /\ dispatches tr = 3%nat.
Proof.
  intros script tr.
  apply (controlLoop_runs_until_stopped Example.env 0 0 0 script Blocked tr).
  - vm_compute; reflexivity.
  - unfold startup_passed; cbn.
    repeat split; discriminate || reflexivity.
  - cbn; discriminate.
  - repeat constructor; cbn; discriminate.
Defined.
